(** * Vehicle damage detection: the detection-result interpretation pipeline

    A shallow embedding of [detector.py] (class [DamageDetector]) and of the
    cost aggregation of [api.py], together with the properties of the
    severity estimator, the cost lookup, the detection builder, the
    annotation renderer and the pickup/return comparison.

    Python values are modelled as the program has them: [int] is [Z],
    [float] is an IEEE-754 binary64 number ([spec_float] with precision 53
    and maximal exponent 1024), [str] is [string] (the bytes of its UTF-8 encoding), a [dict] with string
    keys is a [gmap string _], and an exception is the [Raise] branch of a
    result type. *)

From Stdlib Require Import ZArith Lia SpecFloat.
From stdpp Require Import gmap strings list pretty.

Local Open Scope Z_scope.

(** ** Python numbers and exceptions *)

Module Py.

(** The exceptions the modelled code can raise. *)
Inductive exn : Set :=
| ZeroDivisionError
| OverflowError
| ValueError.

(** A computation either returns a value or raises. *)
Inductive res (A : Type) : Type :=
| Ok (a : A)
| Raise (e : exn).
Global Arguments Ok {A} a.
Global Arguments Raise {A} e.

Global Instance res_ret : MRet res := @Ok.
Global Instance res_bind : MBind res := fun A B f m =>
  match m with
  | Ok a => f a
  | Raise e => Raise e
  end.
Global Instance res_fmap : FMap res := fun A B f m =>
  match m with
  | Ok a => Ok (f a)
  | Raise e => Raise e
  end.

(** [for x in xs: out.append(f(x))]: left to right, stopping at the first
    exception. *)
Fixpoint for_each {A B} (f : A -> res B) (xs : list A) : res (list B) :=
  match xs with
  | [] => Ok []
  | x :: xs' => y ← f x; ys ← for_each f xs'; Ok (y :: ys)
  end.

(** binary64 *)
Definition prec : Z := 53.
Definition emax : Z := 1024.
Abbreviation float := spec_float.

(** The exact, not yet rounded, float image of an [int]. *)
Definition exact_of_int (z : Z) : float :=
  match z with
  | Z0 => S754_zero false
  | Zpos p => S754_finite false p 0
  | Zneg p => S754_finite true p 0
  end.

(** The float nearest to [m * 2^e]. *)
Definition float_of_dyadic (m e : Z) : float := binary_normalize prec emax m e false.

(** [float(z)], for an int literal coerced in a mixed operation. *)
Definition float_of_int (z : Z) : float := float_of_dyadic z 0.

(** [a / b] on two ints: true division, the correctly rounded quotient;
    [ZeroDivisionError] on a zero divisor, [OverflowError] when the
    quotient is too large for a float. *)
Definition int_truediv (a b : Z) : res float :=
  if b =? 0 then Raise ZeroDivisionError
  else match SFdiv prec emax (exact_of_int a) (exact_of_int b) with
       | S754_infinity _ => Raise OverflowError
       | q => Ok q
       end.

(** [x / y] on two floats. *)
Definition float_truediv (x y : float) : res float :=
  match y with
  | S754_zero _ => Raise ZeroDivisionError
  | _ => Ok (SFdiv prec emax x y)
  end.

(** [x - y] on two floats. *)
Definition float_sub (x y : float) : float := SFsub prec emax x y.
(** [x + y] on two floats. *)
Definition float_add (x y : float) : float := SFadd prec emax x y.

(** [x > y] on two floats: false as soon as one side is a NaN. *)
Definition float_gt (x y : float) : bool := SFltb y x.

(** [x <= y] on two floats. *)
Definition float_le (x y : float) : bool := SFleb x y.

(** [int(x)] on a float: truncation toward zero; [ValueError] on a NaN,
    [OverflowError] on an infinity. *)
Definition int_of_float (x : float) : res Z :=
  match x with
  | S754_zero _ => Ok 0
  | S754_nan => Raise ValueError
  | S754_infinity _ => Raise OverflowError
  | S754_finite s m e =>
      let a := match e with
               | Zneg n => Z.shiftr (Zpos m) (Zpos n)
               | _ => Z.shiftl (Zpos m) e
               end in
      Ok (if s then - a else a)
  end.

(** A byte [10xxxxxx], which continues a code point in UTF-8. *)
Definition is_continuation (c : Ascii.ascii) : bool :=
  match c with
  | Ascii.Ascii _ _ _ _ _ _ false true => true
  | _ => false
  end.

(** [len(s)] on a [str]: the number of its code points, that is of the
    bytes of its encoding that start one. *)
Fixpoint len (s : string) : nat :=
  match s with
  | EmptyString => 0
  | String c s' => if is_continuation c then len s' else S (len s')
  end.

(** Float literals of the source, as the binary64 number nearest to the
    decimal. *)
Definition lit_0_05 : float := S754_finite false 7205759403792794 (-57).
Definition lit_0_02 : float := S754_finite false 5764607523034235 (-58).
Definition lit_0_08 : float := S754_finite false 5764607523034235 (-56).
Definition lit_0_03 : float := S754_finite false 8646911284551352 (-58).

(** The shapes a rounded result of sign [sx] can have: a zero, a finite
    number or an infinity of that sign, never a NaN. *)
Inductive rounded (sx : bool) : float -> Prop :=
| rounded_zero : rounded sx (S754_zero sx)
| rounded_finite m e : rounded sx (S754_finite sx m e)
| rounded_infinity : rounded sx (S754_infinity sx).

(** A zero or a finite number of sign [sx]. *)
Inductive finite_signed (sx : bool) : float -> Prop :=
| finite_signed_zero : finite_signed sx (S754_zero sx)
| finite_signed_finite m e : finite_signed sx (S754_finite sx m e).

(** The sign bit of the quotient of two ints. *)
Definition quotient_sign (a b : Z) : bool := xorb (a <? 0) (b <? 0).

End Py.
Import Py.

(** ** [detector.py]: class [DamageDetector] *)

Module DamageDetector.

(** Damage class definitions (23 custom classes). *)
Definition DAMAGE_CLASSES : list string :=
  [ "bonnet-dent"; "doorouter-dent"; "doorouter-paint-trace"; "doorouter-scratch";
    "fender-dent"; "front-bumper-dent"; "front-bumper-scratch"; "Front-Windscreen-Damage";
    "Headlight-Damage"; "Major-Rear-Bumper-Dent"; "medium-Bodypanel-Dent"; "paint-chip";
    "paint-trace"; "pillar-dent"; "quaterpanel-dent"; "rear-bumper-dent";
    "rear-bumper-scratch"; "Rear-windscreen-Damage"; "roof-dent"; "RunningBoard-Dent";
    "Sidemirror-Damage"; "Signlight-Damage"; "Taillight-Damage" ]%string.

(** One row of the cost matrix: [{'minor': a, 'moderate': b, 'severe': c}]. *)
Definition cost_row (a b c : Z) : gmap string Z :=
  <["minor"%string := a]> (<["moderate"%string := b]> (<["severe"%string := c]> ∅)).

(** Repair cost estimation matrix (USD). *)
Definition REPAIR_COSTS : gmap string (gmap string Z) :=
  list_to_map
    [ ("bonnet-dent", cost_row 150 400 800);
      ("doorouter-dent", cost_row 100 350 700);
      ("fender-dent", cost_row 120 380 750);
      ("front-bumper-dent", cost_row 100 300 600);
      ("pillar-dent", cost_row 200 500 1000);
      ("quaterpanel-dent", cost_row 150 400 800);
      ("rear-bumper-dent", cost_row 100 300 600);
      ("roof-dent", cost_row 200 600 1200);
      ("medium-Bodypanel-Dent", cost_row 150 400 900);
      ("Major-Rear-Bumper-Dent", cost_row 300 700 1500);
      ("RunningBoard-Dent", cost_row 80 250 500);
      ("doorouter-scratch", cost_row 50 150 400);
      ("front-bumper-scratch", cost_row 50 150 350);
      ("rear-bumper-scratch", cost_row 50 150 350);
      ("doorouter-paint-trace", cost_row 60 180 450);
      ("paint-chip", cost_row 40 120 300);
      ("paint-trace", cost_row 50 150 400);
      ("Front-Windscreen-Damage", cost_row 200 500 1000);
      ("Rear-windscreen-Damage", cost_row 200 500 1000);
      ("Headlight-Damage", cost_row 150 400 800);
      ("Taillight-Damage", cost_row 100 300 600);
      ("Signlight-Damage", cost_row 80 200 400);
      ("Sidemirror-Damage", cost_row 100 300 600) ]%string.

(** [critical_types], the local list of [_estimate_severity]. *)
Definition critical_types : list string :=
  [ "Major-Rear-Bumper-Dent"; "Front-Windscreen-Damage"; "Rear-windscreen-Damage" ]%string.

(** [_estimate_severity(x1, y1, x2, y2, damage_class, img_shape)], with
    [img_shape = (h, w)]. *)
Definition _estimate_severity (x1 y1 x2 y2 : Z) (damage_class : string)
    (img_shape : Z * Z) : res string :=
  let '(h, w) := img_shape in
  let bbox_area := (x2 - x1) * (y2 - y1) in
  let img_area := h * w in
  damage_ratio ← int_truediv bbox_area img_area;
  if bool_decide (damage_class ∈ critical_types) then
    if float_gt damage_ratio lit_0_05 then Ok "severe"%string
    else if float_gt damage_ratio lit_0_02 then Ok "moderate"%string
    else Ok "minor"%string
  else
    if float_gt damage_ratio lit_0_08 then Ok "severe"%string
    else if float_gt damage_ratio lit_0_03 then Ok "moderate"%string
    else Ok "minor"%string.


(** A raw prediction of the inference service: class, confidence and a
    center-form box in pixel space, the numbers of the response being
    floats. *)
Record RawPrediction := {
  pred_x : float;
  pred_y : float;
  pred_width : float;
  pred_height : float;
  pred_class : string;
  pred_confidence : float
}.

(** The response of [client.infer]: a dict that may or may not have the
    key ['predictions']. *)
Record InferenceResult := {
  predictions : option (list RawPrediction)
}.

(** One entry of the list [detect_damages] returns. *)
Record Detection := {
  bbox : Z * Z * Z * Z;
  confidence : float;
  class : string;
  severity : string;
  estimated_cost : Z
}.

(** [self.REPAIR_COSTS.get(class_name, {}).get(severity, 100)] *)
Definition repair_cost (class_name severity : string) : Z :=
  default 100 (default ∅ (REPAIR_COSTS !! class_name) !! severity).

(** The body of the loop of [detect_damages], for one prediction. *)
Definition detection_of (img_shape : Z * Z) (pred : RawPrediction) : res Detection :=
  let x_center := pred_x pred in
  let y_center := pred_y pred in
  let width := pred_width pred in
  let height := pred_height pred in
  hw ← float_truediv width (float_of_int 2);
  x1 ← int_of_float (float_sub x_center hw);
  hh ← float_truediv height (float_of_int 2);
  y1 ← int_of_float (float_sub y_center hh);
  hw' ← float_truediv width (float_of_int 2);
  x2 ← int_of_float (float_add x_center hw');
  hh' ← float_truediv height (float_of_int 2);
  y2 ← int_of_float (float_add y_center hh');
  let class_name := pred_class pred in
  let confidence := pred_confidence pred in
  severity ← _estimate_severity x1 y1 x2 y2 class_name img_shape;
  let cost := repair_cost class_name severity in
  Ok {| bbox := (x1, y1, x2, y2);
        confidence := confidence;
        class := class_name;
        severity := severity;
        estimated_cost := cost |}.

(** [detect_damages(image)], from the response [result] of the inference
    call on (the statements after [result = self.client.infer(...)]):
    [img_shape] is [np.array(image).shape[:2]].  Encoding the image as JPEG
    and the inference call run before, outside the repository; when one of
    them raises, as the encoder does on an image of zero area, nothing
    below is reached. *)
Definition detect_damages (result : InferenceResult) (img_shape : Z * Z)
    : res (list Detection) :=
  match predictions result with
  | Some preds => for_each (detection_of img_shape) preds
  | None => Ok []
  end.

(** [l.count(c)] *)
Definition count (l : list string) (c : string) : nat :=
  length (filter (λ x, x = c) l).

(** [sum(d['estimated_cost'] for d in ds)] *)
Definition sum_estimated_cost (ds : list Detection) : Z :=
  foldl Z.add 0 (estimated_cost <$> ds).

Record ComparisonResult := {
  pickup_damages : list Detection;
  return_damages : list Detection;
  new_damages : list Detection;
  total_new_cost : Z;
  summary : string
}.

(** [compare_images], once both detection lists are there. *)
Definition compare_damages (pickup_damages return_damages : list Detection)
    : ComparisonResult :=
  let pickup_classes := class <$> pickup_damages in
  let new_damages :=
    filter (λ d, class d ∉ pickup_classes ∨
                 (count pickup_classes (class d) <
                  count (class <$> return_damages) (class d))%nat)
           return_damages in
  let total_new_cost := sum_estimated_cost new_damages in
  {| pickup_damages := pickup_damages;
     return_damages := return_damages;
     new_damages := new_damages;
     total_new_cost := total_new_cost;
     summary := "Found " +:+ pretty (length new_damages) +:+
                " new damage(s). Estimated cost: $" +:+ pretty total_new_cost |}.

(** [compare_images(pickup_img, return_img)], from the two inference
    responses. *)
Definition compare_images (pickup_result : InferenceResult) (pickup_shape : Z * Z)
    (return_result : InferenceResult) (return_shape : Z * Z) : res ComparisonResult :=
  pickup_damages ← detect_damages pickup_result pickup_shape;
  return_damages ← detect_damages return_result return_shape;
  Ok (compare_damages pickup_damages return_damages).

(** *** Annotation *)

(** A PIL image: its size and its pixel data. *)
Record Image := {
  im_size : Z * Z;
  im_data : list (Z * Z * Z)
}.

(** Images are mutable objects: a store maps references ([positive]
    numbers) to images. *)
Abbreviation store := (gmap positive Image).

Definition default_color_map : gmap string string :=
  <["minor"%string := "yellow"%string]>
    (<["moderate"%string := "orange"%string]>
       (<["severe"%string := "red"%string]> ∅)).

Section Annotation.
(** The drawing primitives of PIL and the formatting of the label are
    outside the repository: what they paint is a parameter. *)
Variable font : Type.
(** the font [try: truetype(...) except: load_default()] ends with *)
Variable the_font : font.
(** [draw.rectangle(box, outline=color, width=w)] *)
Variable rectangle_outline : Z * Z * Z * Z -> string -> Z -> Image -> Image.
(** [draw.rectangle(box, fill=color)] *)
Variable rectangle_fill : Z * Z * Z * Z -> string -> Image -> Image.
(** [draw.text(xy, label, fill=color, font=font)] *)
Variable text : Z * Z -> string -> string -> font -> Image -> Image.
(** [f"{class_name} ({confidence*100:.1f}%)"] *)
Variable format_label : string -> float -> string.

(** The body of the loop of [draw_detections]: three drawing calls on
    the image behind the [ImageDraw] handle [draw]. *)
Definition draw_one (color_map : gmap string string) (draw : positive)
    (σ : store) (det : Detection) : store :=
  let '(x1, y1, x2, y2) := bbox det in
  let severity := severity det in
  let class_name := class det in
  let confidence := confidence det in
  let color := default "red"%string (color_map !! severity) in
  let σ := alter (rectangle_outline (x1, y1, x2, y2) color 3) draw σ in
  let label := format_label class_name confidence in
  let σ := alter (rectangle_fill (x1, y1 - 25, x1 + Z.of_nat (len label) * 10, y1)
                    color) draw σ in
  alter (text (x1 + 5, y1 - 22) label "white"%string the_font) draw σ.

(** [draw_detections(image, detections, color_map=None)]: the new store
    and the reference of the annotated image; [None] when [image] is
    not a live reference. *)
Definition draw_detections (σ : store) (image : positive) (detections : list Detection)
    (color_map : option (gmap string string)) : option (store * positive) :=
  let color_map := default default_color_map color_map in
  img ← σ !! image;
  let img_copy := fresh (dom σ) in
  let σ := <[img_copy := img]> σ in
  Some (foldl (draw_one color_map img_copy) σ detections, img_copy).
End Annotation.

End DamageDetector.
Import DamageDetector.

(** ** [api.py] *)

(** [total_cost = sum(d['estimated_cost'] for d in detections)] of
    [detect_damage]. *)
Definition total_estimated_cost (detections : list Detection) : Z :=
  sum_estimated_cost detections.

(** ** [config.py] *)
(** [CONFIDENCE_THRESHOLD], default [0.25]. *)
Definition CONFIDENCE_THRESHOLD : float := S754_finite false 4503599627370496 (-54).

(** ** The words of the specification *)

Module Spec.

(** "Rounding to nearest integer": the integer nearest to a float, a tie
    going to the even one as Python's [round] has it. *)
Definition round_nearest (x : float) : res Z :=
  match x with
  | S754_zero _ => Ok 0
  | S754_nan => Raise ValueError
  | S754_infinity _ => Raise OverflowError
  | S754_finite s m e =>
      let a := match e with
               | Zneg n =>
                   let q := Zpos m / 2 ^ Zpos n in
                   let r := Zpos m mod 2 ^ Zpos n in
                   let half := 2 ^ (Zpos n - 1) in
                   if (half <? r) || ((r =? half) && Z.odd q) then q + 1 else q
               | _ => Zpos m * 2 ^ e
               end in
      Ok (if s then - a else a)
  end.

(** "[x1 = round(xc - w/2)], etc." *)
Definition rounded_bbox (pred : RawPrediction) : res (Z * Z * Z * Z) :=
  hw ← float_truediv (pred_width pred) (float_of_int 2);
  hh ← float_truediv (pred_height pred) (float_of_int 2);
  x1 ← round_nearest (float_sub (pred_x pred) hw);
  y1 ← round_nearest (float_sub (pred_y pred) hh);
  x2 ← round_nearest (float_add (pred_x pred) hw);
  y2 ← round_nearest (float_add (pred_y pred) hh);
  Ok (x1, y1, x2, y2).

(** [z] is the float [x] truncated toward zero: [x] is a number,
    [|z| <= |x| < |z| + 1], and [z] has no sign that [x] has not. *)
Definition truncation_of (x : float) (z : Z) : Prop :=
  match x with
  | S754_zero _ => z = 0
  | S754_finite s m e =>
      Z.abs z * 2 ^ Z.max 0 (- e) <= Zpos m * 2 ^ Z.max 0 e
        < (Z.abs z + 1) * 2 ^ Z.max 0 (- e) /\
      (if s then z <= 0 else 0 <= z)
  | _ => False
  end.

(** "The first [min(p, r)] return-side detections of class [C] (in
    return-list order) are treated as pre-existing, and any excess are
    new": what is new among the detections of class [C]. *)
Definition new_of_class (C : string) (pickup ret : list Detection) : list Detection :=
  let p := count (class <$> pickup) C in
  let r := count (class <$> ret) C in
  drop (p `min` r) (filter (λ d, class d = C) ret).

(** "Axis-aligned rectangle with integer corner coordinates
    [(x1, y1, x2, y2)], [x1 < x2], [y1 < y2]": a zero-area or degenerate
    box is one that is no such rectangle. *)
Definition degenerate_box (x1 y1 x2 y2 : Z) : Prop := ~ (x1 < x2 /\ y1 < y2).

End Spec.

(** ** Example inputs *)

Module Examples.

(** A prediction centered at (200.75, 200.75), 100 wide and 100 high. *)
Definition off_center : RawPrediction :=
  {| pred_x := float_of_dyadic 803 (-2); pred_y := float_of_dyadic 803 (-2);
     pred_width := float_of_int 100; pred_height := float_of_int 100;
     pred_class := "front-bumper-dent"; pred_confidence := float_of_dyadic 3 (-2) |}.

(** A minor roof dent whose box starts at abscissa [x]. *)
Definition dent_at (x : Z) : Detection :=
  {| bbox := (x, 20, x + 50, 60); confidence := float_of_dyadic 3 (-2);
     class := "roof-dent"; severity := "minor"; estimated_cost := 200 |}.

(** A prediction of class [c] and confidence [conf] centered at
    (200, 200), 100 wide and 100 high. *)
Definition centered (c : string) (conf : float) : RawPrediction :=
  {| pred_x := float_of_int 200; pred_y := float_of_int 200;
     pred_width := float_of_int 100; pred_height := float_of_int 100;
     pred_class := c; pred_confidence := conf |}.

(** A prediction of negative width and height: centered at (200, 200),
    -300 wide and -300 high. *)
Definition inverted : RawPrediction :=
  {| pred_x := float_of_int 200; pred_y := float_of_int 200;
     pred_width := float_of_int (-300); pred_height := float_of_int (-300);
     pred_class := "roof-dent"; pred_confidence := float_of_dyadic 3 (-2) |}.

(** A two-pixel image. *)
Definition two_pixels : Image :=
  {| im_size := (2, 1); im_data := [(0, 0, 0); (255, 255, 255)] |}.

End Examples.
Import Examples.

(** ** [api.py] and [ui.py]: the statistics of a list of detections *)

Module Statistics.

(** [sum(1 for d in detections if d['severity'] == s)] *)
Definition severity_count (s : string) (detections : list Detection) : Z :=
  foldl Z.add 0 ((λ _, 1) <$> filter (λ d, severity d = s) detections).

(** The dict ["severity_breakdown"] of [detect_damage] and the dict
    [severity_counts] of [analyze_single_image]. *)
Definition severity_breakdown (detections : list Detection) : gmap string Z :=
  <["minor"%string := severity_count "minor" detections]>
    (<["moderate"%string := severity_count "moderate" detections]>
       (<["severe"%string := severity_count "severe" detections]> ∅)).

(** The dict ["summary"] of the response of [detect_damage]. *)
Record DetectSummary := {
  total_damages : nat;
  total_estimated_cost_of : Z;
  breakdown : gmap string Z
}.

Definition detect_summary (detections : list Detection) : DetectSummary :=
  let total_cost := total_estimated_cost detections in
  {| total_damages := length detections;
     total_estimated_cost_of := total_cost;
     breakdown := severity_breakdown detections |}.

(** The dict ["comparison_summary"] of the response of the endpoint
    [compare_images]. *)
Record ComparisonSummary := {
  n_pickup_damages : nat;
  n_return_damages : nat;
  n_new_damages : nat;
  new_cost : Z
}.

Definition comparison_summary (comparison : ComparisonResult) : ComparisonSummary :=
  {| n_pickup_damages := length (pickup_damages comparison);
     n_return_damages := length (return_damages comparison);
     n_new_damages := length (new_damages comparison);
     new_cost := total_new_cost comparison |}.

End Statistics.
Import Statistics.

(** ** Measures used to state properties *)

Module Measure.

(** [x] is a number of magnitude below [2^k]. *)
Definition magnitude_below (k : Z) (x : float) : Prop :=
  match x with
  | S754_zero _ => True
  | S754_finite _ m e => Zdigits2 (Zpos m) + e <= k
  | _ => False
  end.

(** A prediction whose center and size are numbers below [2^500] in
    magnitude. *)
Definition bounded_prediction (pred : RawPrediction) : Prop :=
  magnitude_below 500 (pred_x pred) /\ magnitude_below 500 (pred_y pred) /\
  magnitude_below 500 (pred_width pred) /\ magnitude_below 500 (pred_height pred).

(** The order minor < moderate < severe. *)
Definition severity_rank (s : string) : nat :=
  if decide (s = "severe"%string) then 2
  else if decide (s = "moderate"%string) then 1 else 0.


End Measure.
Import Measure.

(** * Properties *)

(** ** binary64 rounding: digits, shifts and the absence of overflow *)

Section Binary64.

Lemma digits2_pos_size p : digits2_pos p = Pos.size p.
Proof. induction p as [p IH|p IH|]; simpl; congruence. Qed.

Lemma Zdigits2_log2 m : 0 < m -> Zdigits2 m = Z.log2 m + 1.
Proof.
  destruct m as [|p|p]; try lia. intros _. simpl.
  rewrite digits2_pos_size. destruct p; simpl; lia.
Qed.

Lemma Zdigits2_nonneg m : 0 <= Zdigits2 m.
Proof. destruct m; simpl; lia. Qed.

Lemma Zdigits2_bound m k : 0 <= k -> 0 <= m < 2 ^ k -> Zdigits2 m <= k.
Proof.
  intros Hk [Hm Hlt]. destruct (Z.eq_dec m 0) as [->|Hne]; [simpl; lia|].
  rewrite Zdigits2_log2 by lia.
  assert (Z.log2 m < k) by (apply Z.log2_lt_pow2; lia). lia.
Qed.

Lemma Zdigits2_mono m n : 0 <= m <= n -> Zdigits2 m <= Zdigits2 n.
Proof.
  intros [Hm Hn]. destruct (Z.eq_dec m 0) as [->|Hne]; [apply Zdigits2_nonneg|].
  rewrite !Zdigits2_log2 by lia. pose proof (Z.log2_le_mono m n Hn). lia.
Qed.

Lemma Zdigits2_succ m : 0 <= m -> Zdigits2 (m + 1) <= Zdigits2 m + 1.
Proof.
  intros Hm. destruct (Z.eq_dec m 0) as [->|Hne]; [simpl; lia|].
  rewrite !Zdigits2_log2 by lia.
  pose proof (Z.log2_succ_le m). unfold Z.succ in *. lia.
Qed.

Lemma shr_1_m r : 0 <= shr_m r -> shr_m (shr_1 r) = shr_m r / 2.
Proof.
  destruct r as [m rb sb]; simpl. intros Hm.
  destruct m as [|[p|p|]|p]; cbn [shr_m]; try lia; try reflexivity.
  - apply Z.div_unique with 1; lia.
  - apply Z.div_unique with 0; lia.
Qed.

Lemma iter_shr_1_m p : forall r, 0 <= shr_m r ->
  shr_m (SpecFloat.iter_pos shr_1 p r) = shr_m r / 2 ^ Zpos p.
Proof.
  induction p as [p IH|p IH|]; intros r Hr; cbn [SpecFloat.iter_pos].
  - assert (H1 : 0 <= shr_m (shr_1 r)) by (rewrite shr_1_m by done; apply Z.div_pos; lia).
    assert (H2 : 0 <= shr_m (SpecFloat.iter_pos shr_1 p (shr_1 r))).
    { rewrite IH by done. apply Z.div_pos; lia. }
    rewrite IH, IH, shr_1_m by done.
    rewrite !Z.div_div by lia. f_equal.
    rewrite Pos2Z.inj_xI, <- !Z.pow_add_r, <- Z.pow_succ_r by lia. f_equal. lia.
  - assert (H2 : 0 <= shr_m (SpecFloat.iter_pos shr_1 p r)).
    { rewrite IH by done. apply Z.div_pos; lia. }
    rewrite IH, IH by done.
    rewrite !Z.div_div by lia. f_equal.
    rewrite Pos2Z.inj_xO, <- !Z.pow_add_r by lia. f_equal. lia.
  - rewrite shr_1_m by done. reflexivity.
Qed.

Lemma shr_record_of_loc_m m l : shr_m (shr_record_of_loc m l) = m.
Proof. destruct l as [|[]]; reflexivity. Qed.

Lemma shr_fexp_spec m e l : 0 <= m ->
  snd (shr_fexp prec emax m e l) = Z.max e (fexp prec emax (Zdigits2 m + e)) /\
  shr_m (fst (shr_fexp prec emax m e l)) = m / 2 ^ (snd (shr_fexp prec emax m e l) - e).
Proof.
  intros Hm. unfold shr_fexp, shr.
  destruct (fexp prec emax (Zdigits2 m + e) - e) as [|n|n] eqn:Hn; cbn [fst snd].
  - rewrite shr_record_of_loc_m, Z.sub_diag, Z.pow_0_r, Z.div_1_r. split; [lia|done].
  - rewrite iter_shr_1_m by (rewrite shr_record_of_loc_m; done).
    rewrite shr_record_of_loc_m. replace (e + Zpos n - e) with (Zpos n) by lia.
    split; [lia|done].
  - rewrite shr_record_of_loc_m, Z.sub_diag, Z.pow_0_r, Z.div_1_r. split; [lia|done].
Qed.

Lemma round_nearest_even_bounds m l :
  m <= round_nearest_even m l <= m + 1.
Proof. destruct l as [|[]]; simpl; try lia. destruct (Z.even m); lia. Qed.

Lemma Zdigits2_shift m k n : 0 <= k -> 0 < m -> m * 2 ^ k <= n ->
  Zdigits2 m + k <= Zdigits2 n.
Proof.
  intros Hk Hm Hle.
  assert (0 < 2 ^ k) by (apply Z.pow_pos_nonneg; lia).
  assert (0 < n) by nia.
  rewrite !Zdigits2_log2 by lia.
  pose proof (Z.log2_le_mono _ _ Hle) as Hl.
  rewrite Z.log2_mul_pow2 in Hl by lia. lia.
Qed.

Lemma binary_round_aux_rounded sx mx ex lx : 0 <= mx ->
  rounded sx (binary_round_aux prec emax sx mx ex lx).
Proof.
  intros Hm. unfold binary_round_aux.
  pose proof (shr_fexp_spec mx ex lx Hm) as [He1 Hm1].
  destruct (shr_fexp prec emax mx ex lx) as [r1 e1]; cbn [fst snd] in *.
  pose proof (round_nearest_even_bounds (shr_m r1) (loc_of_shr_record r1)) as Hrne.
  assert (0 <= shr_m r1) by (rewrite Hm1; apply Z.div_pos; [lia|apply Z.pow_pos_nonneg; lia]).
  set (m2 := round_nearest_even _ _) in *.
  pose proof (shr_fexp_spec m2 e1 loc_Exact ltac:(lia)) as [He2 Hm2].
  destruct (shr_fexp prec emax m2 e1 loc_Exact) as [r2 e2]; cbn [fst snd] in *.
  assert (0 <= shr_m r2) by (rewrite Hm2; apply Z.div_pos; [lia|apply Z.pow_pos_nonneg; lia]).
  destruct (shr_m r2) as [|p|p]; [constructor| |lia].
  destruct (e2 <=? emax - prec); constructor.
Qed.

Lemma binary_round_aux_no_overflow sx mx ex lx :
  0 <= mx -> ex <= 971 -> Zdigits2 mx + ex <= 1023 ->
  binary_round_aux prec emax sx mx ex lx <> S754_infinity sx.
Proof.
  intros Hm Hex Hd. unfold binary_round_aux.
  pose proof (shr_fexp_spec mx ex lx Hm) as [He1 Hm1].
  destruct (shr_fexp prec emax mx ex lx) as [r1 e1]; cbn [fst snd] in *.
  pose proof (round_nearest_even_bounds (shr_m r1) (loc_of_shr_record r1)) as Hrne.
  assert (Hr1 : 0 <= shr_m r1) by (rewrite Hm1; apply Z.div_pos; [lia|apply Z.pow_pos_nonneg; lia]).
  set (m2 := round_nearest_even _ _) in *.
  pose proof (shr_fexp_spec m2 e1 loc_Exact ltac:(lia)) as [He2 Hm2].
  destruct (shr_fexp prec emax m2 e1 loc_Exact) as [r2 e2]; cbn [fst snd] in *.
  destruct (shr_m r2) as [|p|p]; try discriminate.
  assert (He1' : e1 <= 971) by (unfold fexp, emin, prec, emax in He1; lia).
  assert (Hd2 : Zdigits2 m2 + e1 <= 1024).
  { pose proof (Zdigits2_mono m2 (shr_m r1 + 1) ltac:(lia)).
    pose proof (Zdigits2_succ (shr_m r1) Hr1).
    destruct (Z.eq_dec (shr_m r1) 0) as [Hz|Hz].
    - rewrite Hz in *. simpl in *. lia.
    - assert (Zdigits2 (shr_m r1) + (e1 - ex) <= Zdigits2 mx); [|lia].
      apply Zdigits2_shift; [lia|lia|].
      rewrite Hm1. rewrite Z.mul_comm. apply Z.mul_div_le.
      apply Z.pow_pos_nonneg; lia. }
  assert (e2 <= 971) by (unfold fexp, emin, prec, emax in He2; lia).
  replace (e2 <=? emax - prec) with true; [discriminate|].
  symmetry. apply Z.leb_le. unfold emax, prec. lia.
Qed.

Lemma SFdiv_pos_rounded sa a sb b :
  rounded (xorb sa sb) (SFdiv prec emax (S754_finite sa a 0) (S754_finite sb b 0)).
Proof.
  unfold SFdiv, SFdiv_core_binary.
  set (e' := Z.min _ _). set (m' := match 0 - 0 - e' with Z0 => _ | Zpos _ => _ | Zneg _ => _ end).
  assert (Hm' : 0 <= m').
  { subst m'. destruct (0 - 0 - e'); try lia. apply Z.shiftl_nonneg. lia. }
  pose proof (Z_div_mod m' (Zpos b) ltac:(lia)) as Hdm.
  destruct (Z.div_eucl m' (Z.pos b)) as [q r].
  apply binary_round_aux_rounded. nia.
Qed.

Lemma SFdiv_pos_no_overflow sa a sb b :
  Zpos a < 2 ^ 1023 * Zpos b ->
  SFdiv prec emax (S754_finite sa a 0) (S754_finite sb b 0) <> S754_infinity (xorb sa sb).
Proof.
  intros Hab. unfold SFdiv, SFdiv_core_binary.
  set (e' := Z.min _ _). set (m' := match 0 - 0 - e' with Z0 => _ | Zpos _ => _ | Zneg _ => _ end).
  assert (He' : e' <= 0) by (subst e'; lia).
  assert (Hm' : m' = Zpos a * 2 ^ (- e')).
  { subst m'. destruct (0 - 0 - e') as [|s|s] eqn:Hs; try lia.
    - replace (- e') with 0 by lia. lia.
    - rewrite Z.shiftl_mul_pow2 by lia. f_equal. f_equal. lia. }
  assert (H2 : 0 < 2 ^ (- e')) by (apply Z.pow_pos_nonneg; lia).
  pose proof (Z_div_mod m' (Zpos b) ltac:(lia)) as Hdm.
  destruct (Z.div_eucl m' (Z.pos b)) as [q r].
  assert (Hq : 0 <= q) by nia.
  apply binary_round_aux_no_overflow; [done|lia|].
  assert (Zdigits2 q <= 1023 - e'); [|lia].
  apply Zdigits2_bound; [lia|]. split; [done|].
  replace (1023 - e') with (1023 + - e') by lia. rewrite Z.pow_add_r by lia.
  nia.
Qed.

Lemma int_truediv_zero_divisor a : int_truediv a 0 = Raise ZeroDivisionError.
Proof. reflexivity. Qed.

(** Dividing by a non-zero int either overflows or gives a zero or a finite
    float with the sign of the quotient. *)
Lemma int_truediv_outcome a b : b <> 0 ->
  int_truediv a b = Raise OverflowError \/
  exists q, int_truediv a b = Ok q /\ finite_signed (quotient_sign a b) q.
Proof.
  intros Hb. unfold int_truediv. rewrite (proj2 (Z.eqb_neq b 0) Hb).
  destruct b as [|b|b]; [done| |]; destruct a as [|a|a]; cbn [exact_of_int];
    try (right; eexists; split; [reflexivity|constructor]).
  all: match goal with
       | |- context [SFdiv prec emax (S754_finite ?sa ?a 0) (S754_finite ?sb ?b 0)] =>
           pose proof (SFdiv_pos_rounded sa a sb b) as Hr;
           destruct Hr; [right; eexists; split; [reflexivity|constructor]
                        |right; eexists; split; [reflexivity|constructor]
                        |left; reflexivity]
       end.
Qed.

(** A quotient below [2^1023] in magnitude does not overflow. *)
Lemma int_truediv_defined a b : b <> 0 -> Z.abs a < 2 ^ 1023 * Z.abs b ->
  exists q, int_truediv a b = Ok q /\ finite_signed (quotient_sign a b) q.
Proof.
  intros Hb Hab. destruct (int_truediv_outcome a b Hb) as [Hov|]; [|done].
  exfalso. revert Hov. unfold int_truediv. rewrite (proj2 (Z.eqb_neq b 0) Hb).
  destruct b as [|b|b]; [done| |]; destruct a as [|a|a]; cbn [exact_of_int];
    try discriminate.
  all: match goal with
       | |- context [SFdiv prec emax (S754_finite ?sa ?a 0) (S754_finite ?sb ?b 0)] =>
           pose proof (SFdiv_pos_no_overflow sa a sb b ltac:(lia)) as Hno;
           pose proof (SFdiv_pos_rounded sa a sb b) as Hr;
           destruct Hr; try discriminate; done
       end.
Qed.

End Binary64.

(** ** Comparing floats *)

Section FloatOrder.

Lemma SFcompare_antisym x y :
  SFcompare y x = CompOpp <$> SFcompare x y.
Proof.
  destruct x as [sx|sx| |sx mx ex], y as [sy|sy| |sy my ey]; cbn;
    try reflexivity; try (destruct sx; reflexivity); try (destruct sy; reflexivity);
    try (destruct sx, sy; reflexivity).
  f_equal. destruct sx, sy; try reflexivity.
  all: rewrite (Z.compare_antisym ex ey); destruct (ex ?= ey); cbn; try reflexivity.
  all: pose proof (Pos.compare_cont_antisym mx my Eq) as Hanti; cbn [CompOpp] in Hanti.
  all: rewrite <- Hanti; reflexivity.
Qed.

(** Away from NaN, [x > y] fails exactly when [x <= y] holds. *)
Lemma float_gt_le s x mc ec : finite_signed s x ->
  float_gt x (S754_finite false mc ec) = negb (float_le x (S754_finite false mc ec)).
Proof.
  intros Hx. unfold float_gt, float_le, SFltb, SFleb.
  rewrite (SFcompare_antisym x).
  destruct Hx; cbn.
  - reflexivity.
  - destruct s; cbn; try reflexivity.
    destruct (e ?= ec); cbn; try reflexivity.
    destruct (Pos.compare_cont Eq m mc); reflexivity.
Qed.

(** Nothing of negative sign, and no zero, is above a positive number. *)
Lemma float_gt_nonpositive s x c e :
  finite_signed s x -> (s = true \/ exists s', x = S754_zero s') ->
  float_gt x (S754_finite false c e) = false.
Proof.
  intros Hx [->|[s' ->]]; [destruct Hx|]; reflexivity.
Qed.

End FloatOrder.

(** ** Correct rounding of the true division *)

Section CorrectRounding.

Lemma Zdigits2_spec m : 0 < m -> 2 ^ (Zdigits2 m - 1) <= m < 2 ^ Zdigits2 m.
Proof.
  intros Hm. rewrite Zdigits2_log2 by done.
  pose proof (Z.log2_spec m Hm) as Hl. unfold Z.succ in Hl.
  replace (Z.log2 m + 1 - 1) with (Z.log2 m) by lia. done.
Qed.

(** One shift halves the mantissa extended by its round bit. *)
Lemma shr_1_ext r : 0 <= shr_m r ->
  2 * shr_m (shr_1 r) + Z.b2z (shr_r (shr_1 r)) = shr_m r.
Proof.
  destruct r as [m rb sb]; cbn [shr_m]. intros Hm.
  destruct m as [|[p|p|]|p]; cbn; lia.
Qed.

Lemma iter_shr_1_ext p : forall r, 0 <= shr_m r ->
  2 * shr_m (SpecFloat.iter_pos shr_1 p r) + Z.b2z (shr_r (SpecFloat.iter_pos shr_1 p r)) =
  (2 * shr_m r + Z.b2z (shr_r r)) / 2 ^ Zpos p.
Proof.
  assert (Hstep : forall r, 0 <= shr_m r ->
            2 * shr_m (shr_1 r) + Z.b2z (shr_r (shr_1 r)) =
            (2 * shr_m r + Z.b2z (shr_r r)) / 2 ^ 1).
  { intros r Hr. rewrite shr_1_ext by done.
    apply Z.div_unique with (Z.b2z (shr_r r)); [destruct (shr_r r); cbn; lia|lia]. }
  assert (Hnn : forall p r, 0 <= shr_m r -> 0 <= shr_m (SpecFloat.iter_pos shr_1 p r)).
  { intros q r Hr. rewrite iter_shr_1_m by done. apply Z.div_pos; lia. }
  assert (Hnn1 : forall r, 0 <= shr_m r -> 0 <= shr_m (shr_1 r)).
  { intros r Hr. rewrite shr_1_m by done. apply Z.div_pos; lia. }
  induction p as [p IH|p IH|]; intros r Hr; cbn [SpecFloat.iter_pos].
  - rewrite IH, IH, Hstep by auto.
    rewrite !Z.div_div by lia. f_equal.
    rewrite Pos2Z.inj_xI, <- !Z.pow_add_r by lia. f_equal. lia.
  - rewrite IH, IH by auto.
    rewrite !Z.div_div by lia. f_equal.
    rewrite Pos2Z.inj_xO, <- !Z.pow_add_r by lia. f_equal. lia.
  - by apply Hstep.
Qed.

Lemma shr_record_of_loc_ext m l :
  (2 * shr_m (shr_record_of_loc m l) + Z.b2z (shr_r (shr_record_of_loc m l))) / 2 = m.
Proof.
  destruct l as [|[]]; cbn [shr_record_of_loc shr_m shr_r Z.b2z];
    symmetry; (apply Z.div_unique with 0; lia) || (apply Z.div_unique with 1; lia).
Qed.

Lemma loc_of_shr_record_of_loc m l : loc_of_shr_record (shr_record_of_loc m l) = l.
Proof. destruct l as [|[]]; reflexivity. Qed.

(** The first shift of the rounding: where the exponent lands, what is left
    of the mantissa, and the round bit. *)
Lemma shr_fexp_cases m e l : 0 <= m ->
  exists r e1, shr_fexp prec emax m e l = (r, e1) /\
    e1 = Z.max e (fexp prec emax (Zdigits2 m + e)) /\
    shr_m r = m / 2 ^ (e1 - e) /\
    (e1 = e -> loc_of_shr_record r = l) /\
    (e < e1 -> 2 * shr_m r + Z.b2z (shr_r r) = m / 2 ^ (e1 - e - 1)).
Proof.
  intros Hm.
  pose proof (shr_fexp_spec m e l Hm) as [He1 Hm1].
  destruct (shr_fexp prec emax m e l) as [r e1] eqn:Hs; cbn [fst snd] in *.
  exists r, e1. split; [done|]. split; [done|]. split; [done|].
  unfold shr_fexp, shr in Hs.
  destruct (fexp prec emax (Zdigits2 m + e) - e) as [|n|n] eqn:Hn.
  - injection Hs as <- <-. split; [intros _; apply loc_of_shr_record_of_loc|lia].
  - injection Hs as <- <-. split; [lia|]. intros _.
    rewrite iter_shr_1_ext by (rewrite shr_record_of_loc_m; done).
    replace (e + Zpos n - e - 1) with (Zpos n - 1) by lia.
    replace (2 ^ Zpos n) with (2 * 2 ^ (Zpos n - 1)).
    + rewrite <- Z.div_div by (try apply Z.pow_pos_nonneg; lia).
      by rewrite shr_record_of_loc_ext.
    + rewrite <- Z.pow_succ_r by lia. f_equal. lia.
  - injection Hs as <- <-. split; [intros _; apply loc_of_shr_record_of_loc|lia].
Qed.


(** The two steps of the rounding, for a mantissa that fills the precision
    unless the exponent is the least one. *)
Lemma binary_round_aux_shape sx q e' loc :
  0 <= q -> -1074 <= e' -> (-1074 < e' -> 2 ^ 52 <= q) ->
  exists e1 m1 m2,
    e' <= e1 /\ -1074 <= e1 /\
    m1 = q / 2 ^ (e1 - e') /\
    0 <= m1 < 2 ^ 53 /\ (-1074 < e1 -> 2 ^ 52 <= m1) /\
    m1 <= m2 <= m1 + 1 /\
    (e1 = e' -> (loc = loc_Exact \/ loc = loc_Inexact Lt) -> m2 = m1) /\
    (e' < e1 -> q / 2 ^ (e1 - e' - 1) = 2 * m1 -> m2 = m1) /\
    binary_round_aux prec emax sx q e' loc =
      match m2 with
      | Z0 => S754_zero sx
      | Zpos p =>
          if m2 =? 2 ^ 53
          then (if e1 + 1 <=? 971 then S754_finite sx 4503599627370496 (e1 + 1)
                else S754_infinity sx)
          else (if e1 <=? 971 then S754_finite sx p e1 else S754_infinity sx)
      | Zneg _ => S754_nan
      end.
Proof.
  intros Hq He' Hnorm. unfold binary_round_aux.
  destruct (shr_fexp_cases q e' loc Hq) as (r1 & e1 & -> & He1 & Hm1 & Hloc & Hbit).
  set (m1 := shr_m r1) in *.
  pose proof (round_nearest_even_bounds m1 (loc_of_shr_record r1)) as Hrne.
  set (m2 := round_nearest_even m1 (loc_of_shr_record r1)) in *.
  assert (Hge : e' <= e1) by lia.
  assert (Hp2 : 0 < 2 ^ (e1 - e')) by (apply Z.pow_pos_nonneg; lia).
  assert (Hm1' : 0 <= m1) by (rewrite Hm1; apply Z.div_pos; lia).
  assert (Hfexp : forall t, fexp prec emax t = Z.max (t - 53) (-1074)) by reflexivity.
  rewrite Hfexp in He1.
  (* the size of m1 *)
  assert (Hsize : m1 < 2 ^ 53 /\ (-1074 < e1 -> 2 ^ 52 <= m1)).
  { destruct (Z.eq_dec q 0) as [->|Hq0].
    { rewrite Z.div_0_l in Hm1 by lia. cbn in He1. lia. }
    pose proof (Zdigits2_spec q ltac:(lia)) as [Hlo Hhi].
    destruct (Z_le_gt_dec (Zdigits2 q) 53) as [Hd|Hd].
    - assert (e1 = e') as -> by lia.
      rewrite Z.sub_diag, Z.pow_0_r, Z.div_1_r in Hm1. rewrite Hm1. split.
      + eapply Z.lt_le_trans; [exact Hhi|]. apply Z.pow_le_mono_r; lia.
      + intros Hn. by apply Hnorm.
    - assert (He1' : e1 = Zdigits2 q + e' - 53) by lia.
      replace (e1 - e') with (Zdigits2 q - 53) in * by lia.
      assert (Hsplit : 2 ^ Zdigits2 q = 2 ^ 53 * 2 ^ (Zdigits2 q - 53)).
      { rewrite <- Z.pow_add_r by lia. f_equal. lia. }
      assert (Hsplit' : 2 ^ (Zdigits2 q - 1) = 2 ^ 52 * 2 ^ (Zdigits2 q - 53)).
      { rewrite <- Z.pow_add_r by lia. f_equal. lia. }
      rewrite Hm1. split.
      + apply Z.div_lt_upper_bound; [done|]. lia.
      + intros _. apply Z.div_le_lower_bound; [done|]. lia. }
  destruct Hsize as [Hlt53 Hnorm1].
  destruct (shr_fexp_cases m2 e1 loc_Exact ltac:(lia)) as (r2 & e2 & -> & He2 & Hm2 & _ & _).
  rewrite Hfexp in He2.
  exists e1, m1, m2. split_and!; try done; try lia.
  - intros Heq Hl. subst m2. rewrite (Hloc Heq). by destruct Hl as [->| ->].
  - intros Hlt Hb. specialize (Hbit Hlt). rewrite Hb in Hbit.
    assert (Hr : shr_r r1 = false) by (destruct (shr_r r1); cbn in Hbit; [lia|done]).
    subst m2. destruct r1 as [m rb sb]; cbn in Hr; subst rb. by destruct sb.
  - (* the second shift *)
    destruct (Z.eq_dec m2 (2 ^ 53)) as [Hfull|Hnot].
    + assert (Hd : Zdigits2 m2 = 54) by (rewrite Hfull; reflexivity).
      assert (e2 = e1 + 1) as -> by lia.
      replace (e1 + 1 - e1) with 1 in Hm2 by lia.
      rewrite Hfull in Hm2. change (2 ^ 53 / 2 ^ 1) with (2 ^ 52) in Hm2.
      rewrite Hm2, Hfull. reflexivity.
    + assert (Hd : Zdigits2 m2 <= 53) by (apply Zdigits2_bound; lia).
      assert (e2 = e1) as -> by lia.
      rewrite Z.sub_diag, Z.pow_0_r, Z.div_1_r in Hm2. rewrite Hm2.
      destruct m2 as [|p|p]; [done| |done].
      by rewrite (proj2 (Z.eqb_neq _ _) Hnot).
Qed.

Lemma new_location_below b r : 0 <= r -> 2 * r < b ->
  new_location b r = loc_Exact \/ new_location b r = loc_Inexact Lt.
Proof.
  intros Hr Hlt. unfold new_location, new_location_even, new_location_odd.
  destruct (Z.even b), (Z.eqb_spec r 0); auto; right; f_equal.
  - by apply Z.compare_lt_iff.
  - destruct (Z.compare_spec (2 * r + 1) b); try done; lia.
Qed.

(** The quotient and remainder the division hands to the rounding. *)
Lemma SFdiv_core_spec (a b : positive) :
  exists q e' r,
    SFdiv_core_binary prec emax (Zpos a) 0 (Zpos b) 0 = (q, e', new_location (Zpos b) r) /\
    -1074 <= e' <= 0 /\
    Zpos a * 2 ^ (- e') = q * Zpos b + r /\ 0 <= r < Zpos b /\ 0 <= q /\
    (-1074 < e' -> 2 ^ 52 <= q).
Proof.
  unfold SFdiv_core_binary.
  set (da := Zdigits2 (Zpos a)). set (db := Zdigits2 (Zpos b)).
  replace (da + 0 - (db + 0)) with (da - db) by lia.
  change (fexp prec emax (da - db)) with (Z.max (da - db - 53) (-1074)).
  set (e' := Z.min _ (0 - 0)).
  assert (He' : -1074 <= e' <= 0) by (subst e'; lia).
  set (m' := match 0 - 0 - e' with Z0 => _ | Zpos _ => _ | Zneg _ => _ end).
  assert (Hm' : m' = Zpos a * 2 ^ (- e')).
  { subst m'. destruct (0 - 0 - e') as [|s|s] eqn:Hs; try lia.
    - replace (- e') with 0 by lia. lia.
    - rewrite Z.shiftl_mul_pow2 by lia. f_equal. f_equal. lia. }
  pose proof (Z_div_mod m' (Zpos b) ltac:(lia)) as Hdm.
  destruct (Z.div_eucl m' (Zpos b)) as [q r]. destruct Hdm as [Hdm Hr].
  assert (H2 : 0 < 2 ^ (- e')) by (apply Z.pow_pos_nonneg; lia).
  exists q, e', r. split_and!; try done; try lia; try nia.
  intros Hn.
  pose proof (Zdigits2_spec (Zpos a) ltac:(lia)) as [Halo _].
  pose proof (Zdigits2_spec (Zpos b) ltac:(lia)) as [_ Hbhi].
  fold da in Halo. fold db in Hbhi.
  assert (Hdb : 0 < db) by (subst db; cbn; lia).
  assert (Hda : 0 < da) by (subst da; cbn; lia).
  assert (Hexp : db + 52 <= da - 1 + - e') by (subst e'; lia).
  assert (Hbig : 2 ^ 52 * 2 ^ db <= Zpos a * 2 ^ (- e')).
  { rewrite <- Z.pow_add_r by lia.
    transitivity (2 ^ (da - 1) * 2 ^ (- e')).
    - rewrite <- Z.pow_add_r by lia. apply Z.pow_le_mono_r; lia.
    - apply Z.mul_le_mono_nonneg_r; lia. }
  nia.
Qed.

(** A quotient at or above the successor of a binary64 number [c] rounds
    above [c], unless it overflows. *)
Lemma SFdiv_above (a b mc : positive) ec :
  2 ^ 52 <= Zpos mc < 2 ^ 53 -> -1074 <= ec <= 0 ->
  (Zpos mc + 1) * Zpos b <= Zpos a * 2 ^ (- ec) ->
  let r := SFdiv prec emax (S754_finite false a 0) (S754_finite false b 0) in
  r = S754_infinity false \/ SFltb (S754_finite false mc ec) r = true.
Proof.
  intros Hmc Hec Hge. cbn zeta. unfold SFdiv.
  destruct (SFdiv_core_spec a b) as (q & e' & r0 & -> & He' & Hdiv & Hr0 & Hq & Hnorm).
  cbn [xorb].
  destruct (binary_round_aux_shape false q e' (new_location (Zpos b) r0) Hq ltac:(lia) Hnorm)
    as (e1 & m1 & m2 & Hle & He1 & Hm1 & Hm1b & Hnorm1 & Hm2 & _ & _ & ->).
  set (n := e1 - e') in *.
  assert (HN : 0 < 2 ^ n) by (apply Z.pow_pos_nonneg; lia).
  assert (Hqlo : m1 * 2 ^ n <= q) by (rewrite Hm1, Z.mul_comm; by apply Z.mul_div_le).
  assert (Hqhi : q < (m1 + 1) * 2 ^ n).
  { rewrite Hm1, Z.mul_comm. by apply Z.mul_succ_div_gt. }
  assert (Hpc : 0 < 2 ^ (- ec)) by (apply Z.pow_pos_nonneg; lia).
  destruct (Z.compare_spec e1 ec) as [Heq|Hlt|Hgt].
  - (* same exponent *)
    assert (HP : 2 ^ (- e') = 2 ^ (- ec) * 2 ^ n).
    { rewrite <- Z.pow_add_r by lia. f_equal. lia. }
    assert (Hm1ge : Zpos mc + 1 <= m1).
    { rewrite Hm1. apply Z.div_le_lower_bound; [done|].
      rewrite HP in Hdiv. nia. }
    destruct m2 as [|p|p]; [lia| |lia].
    destruct (Zpos p =? 2 ^ 53).
    + destruct (e1 + 1 <=? 971); [right|by left].
      unfold SFltb. cbn [SFcompare]. by rewrite (proj2 (Z.compare_lt_iff ec (e1 + 1))) by lia.
    + destruct (e1 <=? 971); [right|by left].
      unfold SFltb. cbn [SFcompare]. rewrite Heq, Z.compare_refl.
      rewrite Pos.compare_cont_spec. cbn [Pos.switch_Eq].
      by rewrite (proj2 (Pos.compare_lt_iff mc p)) by lia.
  - (* smaller exponent: the quotient would be below [c] *)
    exfalso.
    assert (HP : 2 ^ (- e') = 2 ^ (- ec) * 2 ^ n * 2 ^ (ec - e1)).
    { rewrite <- !Z.pow_add_r by lia. f_equal. lia. }
    assert (Hk : 2 <= 2 ^ (ec - e1)).
    { change 2 with (2 ^ 1) at 1. apply Z.pow_le_mono_r; lia. }
    rewrite HP in Hdiv.
    assert (Zpos a * 2 ^ (- ec) * 2 ^ n * 2 ^ (ec - e1) < 2 ^ 53 * 2 ^ n * Zpos b) by nia.
    assert (2 ^ 52 * Zpos b * 2 ^ n * 2 <= Zpos a * 2 ^ (- ec) * 2 ^ n * 2 ^ (ec - e1)).
    { apply Z.mul_le_mono_nonneg; [nia| |lia|done].
      apply Z.mul_le_mono_nonneg_r; [lia|]. nia. }
    lia.
  - (* larger exponent *)
    assert (2 ^ 52 <= m1) by (apply Hnorm1; lia).
    destruct m2 as [|p|p]; [lia| |lia].
    destruct (Zpos p =? 2 ^ 53).
    + destruct (e1 + 1 <=? 971); [right|by left].
      unfold SFltb. cbn [SFcompare]. by rewrite (proj2 (Z.compare_lt_iff ec (e1 + 1))) by lia.
    + destruct (e1 <=? 971); [right|by left].
      unfold SFltb. cbn [SFcompare]. by rewrite (proj2 (Z.compare_lt_iff ec e1)) by lia.
Qed.

(** A quotient below the midpoint of a binary64 number [c] and its
    successor does not round above [c]. *)
Lemma SFdiv_below (a b mc : positive) ec :
  2 ^ 52 <= Zpos mc < 2 ^ 53 -> -1074 <= ec <= 0 ->
  2 * (Zpos a * 2 ^ (- ec)) < (2 * Zpos mc + 1) * Zpos b ->
  SFltb (S754_finite false mc ec)
        (SFdiv prec emax (S754_finite false a 0) (S754_finite false b 0)) = false.
Proof.
  intros Hmc Hec Hlt. unfold SFdiv.
  destruct (SFdiv_core_spec a b) as (q & e' & r0 & -> & He' & Hdiv & Hr0 & Hq & Hnorm).
  cbn [xorb].
  destruct (binary_round_aux_shape false q e' (new_location (Zpos b) r0) Hq ltac:(lia) Hnorm)
    as (e1 & m1 & m2 & Hle & He1 & Hm1 & Hm1b & Hnorm1 & Hm2 & Hdown0 & Hdown & ->).
  set (n := e1 - e') in *.
  assert (HN : 0 < 2 ^ n) by (apply Z.pow_pos_nonneg; lia).
  assert (Hqlo : m1 * 2 ^ n <= q) by (rewrite Hm1, Z.mul_comm; by apply Z.mul_div_le).
  assert (Hqhi : q < (m1 + 1) * 2 ^ n).
  { rewrite Hm1, Z.mul_comm. by apply Z.mul_succ_div_gt. }
  assert (Hpc : 0 < 2 ^ (- ec)) by (apply Z.pow_pos_nonneg; lia).
  destruct (Z.compare_spec e1 ec) as [Heq|Hlt1|Hgt].
  - (* same exponent *)
    assert (HP : 2 ^ (- e') = 2 ^ (- ec) * 2 ^ n).
    { rewrite <- Z.pow_add_r by lia. f_equal. lia. }
    rewrite HP in Hdiv.
    assert (H2q : 2 * q < (2 * Zpos mc + 1) * 2 ^ n) by nia.
    assert (Hm1le : m1 <= Zpos mc) by nia.
    assert (Hm2le : m2 <= Zpos mc).
    { destruct (Z.eq_dec m1 (Zpos mc)) as [Hm1eq|]; [|lia].
      enough (m2 = m1) by lia.
      destruct (Z.eq_dec n 0) as [Hn0|Hn0].
      - apply Hdown0; [lia|]. apply new_location_below; [lia|].
        rewrite Hn0, Z.pow_0_r in *. nia.
      - apply Hdown; [lia|]. fold n.
        assert (Hsplit : 2 ^ n = 2 * 2 ^ (n - 1)).
        { rewrite <- Z.pow_succ_r by lia. f_equal. lia. }
        assert (0 < 2 ^ (n - 1)) by (apply Z.pow_pos_nonneg; lia).
        symmetry. apply Z.div_unique with (q - 2 * m1 * 2 ^ (n - 1)); nia. }
    destruct m2 as [|p|p]; [reflexivity| |reflexivity].
    rewrite (proj2 (Z.eqb_neq (Zpos p) (2 ^ 53))) by lia.
    rewrite (proj2 (Z.leb_le e1 971)) by lia.
    unfold SFltb. cbn [SFcompare]. rewrite Heq, Z.compare_refl.
    rewrite Pos.compare_cont_spec. cbn [Pos.switch_Eq].
    destruct (Pos.compare_spec mc p) as [_|Hc|_];
      [reflexivity|exfalso; clear -Hm2le Hc; lia|reflexivity].
  - (* smaller exponent *)
    destruct m2 as [|p|p]; [reflexivity| |reflexivity].
    destruct (Zpos p =? 2 ^ 53).
    + rewrite (proj2 (Z.leb_le (e1 + 1) 971)) by lia.
      unfold SFltb. cbn [SFcompare].
      destruct (Z.compare_spec ec (e1 + 1)) as [_|Hc|_];
        [|exfalso; clear -Hlt1 Hc; lia|reflexivity].
      rewrite Pos.compare_cont_spec. cbn [Pos.switch_Eq].
      destruct (Pos.compare_spec mc 4503599627370496) as [_|Hc|_];
        [reflexivity|exfalso; apply Pos2Z.pos_lt_pos in Hc; clear -Hmc Hc; lia|reflexivity].
    + rewrite (proj2 (Z.leb_le e1 971)) by lia.
      unfold SFltb. cbn [SFcompare].
      destruct (Z.compare_spec ec e1) as [Hc|Hc|_];
        [exfalso; clear -Hlt1 Hc; lia|exfalso; clear -Hlt1 Hc; lia|reflexivity].
  - (* larger exponent: the quotient would be above the midpoint *)
    exfalso.
    assert (2 ^ 52 <= m1) by (apply Hnorm1; lia).
    assert (HP : 2 ^ (- e') * 2 ^ (e1 - ec) = 2 ^ (- ec) * 2 ^ n).
    { rewrite <- !Z.pow_add_r by lia. f_equal. lia. }
    assert (Hk : 2 <= 2 ^ (e1 - ec)).
    { change 2 with (2 ^ 1) at 1. apply Z.pow_le_mono_r; lia. }
    assert (H1 : 2 ^ 52 * 2 ^ n * Zpos b <= Zpos a * 2 ^ (- e')) by nia.
    assert (H2 : 2 ^ 52 * 2 ^ n * Zpos b * 2 <= Zpos a * 2 ^ (- e') * 2 ^ (e1 - ec)).
    { apply Z.mul_le_mono_nonneg; [nia|done|lia|done]. }
    replace (Zpos a * 2 ^ (- e') * 2 ^ (e1 - ec)) with (Zpos a * 2 ^ (- ec) * 2 ^ n) in H2
      by (rewrite <- !Z.mul_assoc; f_equal; lia).
    assert (H3 : 2 * (Zpos a * 2 ^ (- ec)) * 2 ^ n < 2 ^ 54 * Zpos b * 2 ^ n).
    { apply Z.mul_lt_mono_pos_r; [done|]. nia. }
    lia.
Qed.

(** How the true quotient of two ints compares with a positive binary64
    number [c = mc * 2^ec]: above [c] from the successor of [c] on, not
    above [c] below the midpoint of [c] and its successor. *)
Lemma int_truediv_gt_cases a b ratio (mc : positive) ec :
  2 ^ 52 <= Zpos mc < 2 ^ 53 -> -1074 <= ec <= 0 -> 0 < b ->
  int_truediv a b = Ok ratio ->
  ((Zpos mc + 1) * b <= a * 2 ^ (- ec) ->
   float_gt ratio (S754_finite false mc ec) = true) /\
  (2 * (a * 2 ^ (- ec)) < (2 * Zpos mc + 1) * b ->
   float_gt ratio (S754_finite false mc ec) = false).
Proof.
  intros Hmc Hec Hb Hratio.
  assert (Hpc : 0 < 2 ^ (- ec)) by (apply Z.pow_pos_nonneg; lia).
  destruct b as [|pb|pb]; try lia.
  destruct a as [|pa|pa].
  - (* a zero ratio *)
    cbn in Hratio. injection Hratio as <-.
    split; [intros Hge; exfalso; clear -Hge Hmc; lia|reflexivity].
  - unfold int_truediv in Hratio. cbn [Z.eqb exact_of_int] in Hratio.
    pose proof (SFdiv_above pa pb mc ec Hmc Hec) as Hup.
    pose proof (SFdiv_below pa pb mc ec Hmc Hec) as Hdown.
    cbn zeta in Hup. unfold float_gt.
    destruct (SFdiv prec emax (S754_finite false pa 0) (S754_finite false pb 0))
      as [s|s| |s m e] eqn:Hq; try discriminate; injection Hratio as <-.
    + split; [intros Hge; by destruct (Hup Hge)|intros Hlt; by apply Hdown].
    + split; [intros Hge; by destruct (Hup Hge)|intros Hlt; by apply Hdown].
    + split; [intros Hge; by destruct (Hup Hge)|intros Hlt; by apply Hdown].
  - (* a negative ratio *)
    destruct (int_truediv_outcome (Zneg pa) (Zpos pb) ltac:(done))
      as [Hov|(q & Hq & Hfs)]; [congruence|].
    assert (q = ratio) as -> by congruence.
    split.
    + intros Hge. exfalso. clear -Hge Hmc Hpc. nia.
    + intros _. eapply float_gt_nonpositive; [exact Hfs|by left].
Qed.

(** The four thresholds of the source against the decimals they stand for:
    on an image of up to [2^48] pixels the float comparison is the exact
    one. *)
Lemma int_truediv_gt_exact a b ratio :
  0 < b <= 2 ^ 48 -> int_truediv a b = Ok ratio ->
  (float_gt ratio lit_0_05 = true <-> 5 * b < 100 * a) /\
  (float_gt ratio lit_0_02 = true <-> 2 * b < 100 * a) /\
  (float_gt ratio lit_0_08 = true <-> 8 * b < 100 * a) /\
  (float_gt ratio lit_0_03 = true <-> 3 * b < 100 * a).
Proof.
  intros Hb Hratio.
  assert (Hgen : forall (mc : positive) ec n,
            2 ^ 52 <= Zpos mc < 2 ^ 53 -> -1074 <= ec <= 0 ->
            (n * b < 100 * a -> (Zpos mc + 1) * b <= a * 2 ^ (- ec)) ->
            (100 * a <= n * b -> 2 * (a * 2 ^ (- ec)) < (2 * Zpos mc + 1) * b) ->
            float_gt ratio (S754_finite false mc ec) = true <-> n * b < 100 * a).
  { intros mc ec n Hmc Hec Hup Hdown.
    destruct (int_truediv_gt_cases a b ratio mc ec Hmc Hec ltac:(lia) Hratio) as [Hgt Hle].
    destruct (Z_lt_le_dec (n * b) (100 * a)) as [Hlt|Hge].
    - split; [done|]. intros _. by apply Hgt, Hup.
    - split; [|lia]. intros Habs. rewrite (Hle (Hdown Hge)) in Habs. done. }
  unfold lit_0_05, lit_0_02, lit_0_08, lit_0_03.
  split_and!; apply Hgen; try (cbn; lia).
Qed.

End CorrectRounding.

(** ** Overflow of the true division *)

Section Overflow.

(** A quotient of magnitude [2^1024] or more is too large for a float. *)
Lemma SFdiv_pos_overflow sa a sb b :
  2 ^ 1024 * Zpos b <= Zpos a ->
  SFdiv prec emax (S754_finite sa a 0) (S754_finite sb b 0) = S754_infinity (xorb sa sb).
Proof.
  intros Hab. unfold SFdiv.
  destruct (SFdiv_core_spec a b) as (q & e' & r0 & -> & He' & Hdiv & Hr0 & Hq & Hnorm).
  destruct (binary_round_aux_shape (xorb sa sb) q e' (new_location (Zpos b) r0) Hq
              ltac:(lia) Hnorm)
    as (e1 & m1 & m2 & Hle & He1 & Hm1 & Hm1b & Hnorm1 & Hm2 & _ & _ & ->).
  set (n := e1 - e') in *.
  assert (HN : 0 < 2 ^ n) by (apply Z.pow_pos_nonneg; lia).
  assert (Hqhi : q < (m1 + 1) * 2 ^ n).
  { rewrite Hm1, Z.mul_comm. by apply Z.mul_succ_div_gt. }
  assert (HP : 0 < 2 ^ (- e')) by (apply Z.pow_pos_nonneg; lia).
  assert (Hbig : 2 ^ 1024 * 2 ^ (- e') <= q).
  { assert (HQ : 0 < 2 ^ 1024) by (apply Z.pow_pos_nonneg; lia).
    clear -Hab Hdiv Hr0 HP HQ. set (Q := 2 ^ 1024) in *. set (P := 2 ^ (- e')) in *. nia. }
  assert (He971 : 971 < e1).
  { destruct (Z_lt_le_dec 971 e1) as [|Hsmall]; [done|exfalso].
    assert (E : 2 ^ 1024 * 2 ^ (- e') = 2 ^ 53 * 2 ^ (971 - e1) * 2 ^ n).
    { rewrite <- !Z.pow_add_r by lia. f_equal. lia. }
    assert (HK : 0 < 2 ^ (971 - e1)) by (apply Z.pow_pos_nonneg; lia).
    rewrite E in Hbig.
    clear -Hbig Hqhi Hm1b HN HK. set (K := 2 ^ (971 - e1)) in *. set (N := 2 ^ n) in *.
    set (T := 2 ^ 53) in *. nia. }
  assert (2 ^ 52 <= m1) by (apply Hnorm1; lia).
  assert (0 < 2 ^ 52) by (apply Z.pow_pos_nonneg; lia).
  destruct m2 as [|p|p]; [lia| |lia].
  rewrite (proj2 (Z.leb_gt (e1 + 1) 971)) by lia.
  rewrite (proj2 (Z.leb_gt e1 971)) by lia.
  by destruct (Z.pos p =? 2 ^ 53).
Qed.

Lemma int_truediv_overflow a b : b <> 0 -> 2 ^ 1024 * Z.abs b <= Z.abs a ->
  int_truediv a b = Raise OverflowError.
Proof.
  intros Hb Hab. unfold int_truediv. rewrite (proj2 (Z.eqb_neq b 0) Hb).
  assert (HQ : 0 < 2 ^ 1024) by (apply Z.pow_pos_nonneg; lia).
  destruct b as [|b|b]; [done| |]; destruct a as [|a|a]; cbn [exact_of_int];
    try (exfalso; clear -Hab HQ; set (Q := 2 ^ 1024) in *; lia).
  all: rewrite SFdiv_pos_overflow; [reflexivity|exact Hab].
Qed.

End Overflow.

(** ** The severity estimator *)

Section Severity.

Lemma float_le_lt_trans s x ml el mh eh :
  finite_signed s x ->
  float_le x (S754_finite false ml el) = true ->
  SFltb (S754_finite false ml el) (S754_finite false mh eh) = true ->
  float_le x (S754_finite false mh eh) = true.
Proof.
  intros Hx. unfold float_le, SFleb, SFltb. destruct Hx as [|m e]; cbn; [done|].
  destruct s; [done|].
  change (Pos.compare_cont Eq ?a ?b) with (Pos.compare a b).
  destruct (Z.compare_spec e el), (Z.compare_spec el eh), (Z.compare_spec e eh);
    destruct (Pos.compare_spec m ml), (Pos.compare_spec ml mh), (Pos.compare_spec m mh);
    try done; lia.
Qed.

Lemma SFeqb_finite_eq s x mc ec :
  finite_signed s x -> SFeqb x (S754_finite false mc ec) = true ->
  x = S754_finite false mc ec.
Proof.
  intros Hx. unfold SFeqb. destruct Hx as [|m e]; cbn; [done|].
  destruct s; [done|].
  change (Pos.compare_cont Eq ?a ?b) with (Pos.compare a b).
  destruct (Z.compare_spec e ec), (Pos.compare_spec m mc); try done.
  congruence.
Qed.

(** The outcomes of the threshold cascade on a ratio that is no NaN. *)
Lemma cascade_spec s ratio mh eh ml el :
  finite_signed s ratio ->
  SFltb (S754_finite false ml el) (S754_finite false mh eh) = true ->
  let hi := S754_finite false mh eh in
  let lo := S754_finite false ml el in
  let sev := if float_gt ratio hi then "severe"%string
             else if float_gt ratio lo then "moderate"%string
             else "minor"%string in
  (float_gt ratio hi -> sev = "severe"%string) /\
  (float_gt ratio lo /\ float_le ratio hi -> sev = "moderate"%string) /\
  (float_le ratio lo -> sev = "minor"%string) /\
  (float_gt ratio hi \/ (float_gt ratio lo /\ float_le ratio hi) \/ float_le ratio lo) /\
  (SFeqb ratio hi -> sev = "moderate"%string) /\
  (SFeqb ratio lo -> sev = "minor"%string) /\
  (s = true \/ (exists s', ratio = S754_zero s') -> sev = "minor"%string).
Proof.
  intros Hr Hlh hi lo sev. subst sev hi lo.
  pose proof (float_le_lt_trans s ratio ml el mh eh Hr) as Htr.
  split_and!.
  - destruct (float_gt ratio (S754_finite false mh eh)); done.
  - rewrite !(float_gt_le s ratio _ _ Hr).
    intros [H1 H2]. destruct (float_le ratio (S754_finite false mh eh)); [|done].
    destruct (float_le ratio (S754_finite false ml el)); done.
  - rewrite !(float_gt_le s ratio _ _ Hr).
    intros H. apply Is_true_true in H. rewrite (Htr H Hlh), H. done.
  - rewrite !(float_gt_le s ratio _ _ Hr).
    destruct (float_le ratio (S754_finite false mh eh)),
      (float_le ratio (S754_finite false ml el)); cbn; tauto.
  - intros H. apply Is_true_true, (SFeqb_finite_eq s _ _ _ Hr) in H. subst ratio.
    unfold float_gt at 1. unfold SFltb at 1. cbn [SFcompare].
    rewrite Z.compare_refl.
    change (Pos.compare_cont Eq ?a ?b) with (Pos.compare a b).
    rewrite Pos.compare_refl. unfold float_gt. rewrite Hlh. done.
  - intros H. apply Is_true_true, (SFeqb_finite_eq s _ _ _ Hr) in H. subst ratio.
    assert (Hle : float_le (S754_finite false ml el) (S754_finite false ml el) = true).
    { unfold float_le, SFleb. cbn [SFcompare]. rewrite Z.compare_refl.
      change (Pos.compare_cont Eq ?a ?b) with (Pos.compare a b).
      rewrite Pos.compare_refl. done. }
    rewrite !(float_gt_le s _ _ _ Hr), (Htr Hle Hlh), Hle. done.
  - intros Hs.
    pose proof (float_gt_nonpositive s ratio mh eh Hr Hs) as H1.
    pose proof (float_gt_nonpositive s ratio ml el Hr Hs) as H2.
    rewrite H1, H2. done.
Qed.

(** The tiers, on an input whose ratio the division gives: the severity
    as a function of the binary64 ratio and, on an image of at most [2^48]
    pixels, of the exact ratio of the areas. *)
Lemma estimate_severity_tiers x1 y1 x2 y2 damage_class h w ratio :
  int_truediv ((x2 - x1) * (y2 - y1)) (h * w) = Ok ratio ->
  exists sev, _estimate_severity x1 y1 x2 y2 damage_class (h, w) = Ok sev /\
    critical_types = ["Major-Rear-Bumper-Dent"; "Front-Windscreen-Damage";
                      "Rear-windscreen-Damage"]%string /\
    (damage_class ∈ critical_types ->
       (float_gt ratio lit_0_05 -> sev = "severe"%string) /\
       (float_gt ratio lit_0_02 /\ float_le ratio lit_0_05 -> sev = "moderate"%string) /\
       (float_le ratio lit_0_02 -> sev = "minor"%string) /\
       (float_gt ratio lit_0_05 \/
        (float_gt ratio lit_0_02 /\ float_le ratio lit_0_05) \/
        float_le ratio lit_0_02) /\
       (SFeqb ratio lit_0_05 -> sev = "moderate"%string) /\
       (SFeqb ratio lit_0_02 -> sev = "minor"%string)) /\
    (damage_class ∉ critical_types ->
       (float_gt ratio lit_0_08 -> sev = "severe"%string) /\
       (float_gt ratio lit_0_03 /\ float_le ratio lit_0_08 -> sev = "moderate"%string) /\
       (float_le ratio lit_0_03 -> sev = "minor"%string) /\
       (float_gt ratio lit_0_08 \/
        (float_gt ratio lit_0_03 /\ float_le ratio lit_0_08) \/
        float_le ratio lit_0_03) /\
       (SFeqb ratio lit_0_08 -> sev = "moderate"%string) /\
       (SFeqb ratio lit_0_03 -> sev = "minor"%string)) /\
    (0 < h -> 0 < w -> (x2 - x1) * (y2 - y1) <= 0 -> sev = "minor"%string) /\
    (0 < h -> 0 < w -> h * w <= 2 ^ 48 ->
       (damage_class ∈ critical_types ->
          (5 * (h * w) < 100 * ((x2 - x1) * (y2 - y1)) -> sev = "severe"%string) /\
          (2 * (h * w) < 100 * ((x2 - x1) * (y2 - y1)) <= 5 * (h * w) ->
           sev = "moderate"%string) /\
          (100 * ((x2 - x1) * (y2 - y1)) <= 2 * (h * w) -> sev = "minor"%string)) /\
       (damage_class ∉ critical_types ->
          (8 * (h * w) < 100 * ((x2 - x1) * (y2 - y1)) -> sev = "severe"%string) /\
          (3 * (h * w) < 100 * ((x2 - x1) * (y2 - y1)) <= 8 * (h * w) ->
           sev = "moderate"%string) /\
          (100 * ((x2 - x1) * (y2 - y1)) <= 3 * (h * w) -> sev = "minor"%string))).
Proof.
  intros Hratio.
  assert (Hexact : 0 < h -> 0 < w -> h * w <= 2 ^ 48 ->
            (float_gt ratio lit_0_05 = true <-> 5 * (h * w) < 100 * ((x2 - x1) * (y2 - y1))) /\
            (float_gt ratio lit_0_02 = true <-> 2 * (h * w) < 100 * ((x2 - x1) * (y2 - y1))) /\
            (float_gt ratio lit_0_08 = true <-> 8 * (h * w) < 100 * ((x2 - x1) * (y2 - y1))) /\
            (float_gt ratio lit_0_03 = true <-> 3 * (h * w) < 100 * ((x2 - x1) * (y2 - y1)))).
  { intros Hh Hw Hsz. apply int_truediv_gt_exact; [|done]. split; [|done].
    by apply Z.mul_pos_pos. }
  assert (bool_iff_sumbool : forall (b : bool) (P : Prop),
            (b = true <-> P) -> (b = true /\ P) \/ (b = false /\ ~ P)).
  { intros [] P [H1 H2]; [left|right]; (split; [done|]); [by apply H1|].
    intros HP. by apply H2 in HP. }
  unfold _estimate_severity. rewrite Hratio. cbn [mbind res_bind].
  assert (Hfs : finite_signed (quotient_sign ((x2 - x1) * (y2 - y1)) (h * w)) ratio).
  { destruct (Z.eq_dec (h * w) 0) as [Hz|Hz].
    - rewrite Hz in Hratio. discriminate.
    - destruct (int_truediv_outcome ((x2 - x1) * (y2 - y1)) (h * w) Hz)
        as [Hov|(q & Hq & Hfs)]; congruence. }
  set (s := quotient_sign _ _) in Hfs.
  pose proof (cascade_spec s ratio 7205759403792794 (-57) 5764607523034235 (-58)
                Hfs eq_refl) as Hc.
  pose proof (cascade_spec s ratio 5764607523034235 (-56) 8646911284551352 (-58)
                Hfs eq_refl) as Hn.
  cbn zeta in Hc, Hn. fold lit_0_05 lit_0_02 in Hc. fold lit_0_08 lit_0_03 in Hn.
  assert (Hdeg : 0 < h -> 0 < w -> (x2 - x1) * (y2 - y1) <= 0 ->
                 s = true \/ exists s', ratio = S754_zero s').
  { intros Hh Hw Ha. destruct (Z.eq_dec ((x2 - x1) * (y2 - y1)) 0) as [Hz|Hz].
    - right. rewrite Hz in Hratio. unfold int_truediv in Hratio.
      destruct (h * w) eqn:Hhw; try lia. cbn in Hratio. injection Hratio as <-. eauto.
    - left. subst s. unfold quotient_sign.
      rewrite (proj2 (Z.ltb_lt _ 0)) by lia. rewrite (proj2 (Z.ltb_ge _ 0)) by lia. done. }
  destruct (bool_decide (damage_class ∈ critical_types)) eqn:Hcrit;
    [apply bool_decide_eq_true in Hcrit|apply bool_decide_eq_false in Hcrit].
  - exists (if float_gt ratio lit_0_05 then "severe"%string
            else if float_gt ratio lit_0_02 then "moderate"%string else "minor"%string).
    split; [by destruct (float_gt ratio lit_0_05), (float_gt ratio lit_0_02)|].
    split; [reflexivity|].
    destruct Hc as (Hc1 & Hc2 & Hc3 & Hc4 & Hc5 & Hc6 & Hc7).
    split_and!; [tauto|tauto|auto|].
    intros Hh Hw Hsz. destruct (Hexact Hh Hw Hsz) as (H5 & H2 & _ & _).
    split; [intros _|done].
    pose proof (Z.mul_pos_pos h w Hh Hw) as Hpos.
    apply bool_iff_sumbool in H5, H2.
    destruct H5 as [[E5 H5]|[E5 H5]], H2 as [[E2 H2]|[E2 H2]]; rewrite ?E5, ?E2; split_and!; intros ?; first [done|exfalso; lia].
  - exists (if float_gt ratio lit_0_08 then "severe"%string
            else if float_gt ratio lit_0_03 then "moderate"%string else "minor"%string).
    split; [by destruct (float_gt ratio lit_0_08), (float_gt ratio lit_0_03)|].
    split; [reflexivity|].
    destruct Hn as (Hc1 & Hc2 & Hc3 & Hc4 & Hc5 & Hc6 & Hc7).
    split_and!; [tauto|tauto|auto|].
    intros Hh Hw Hsz. destruct (Hexact Hh Hw Hsz) as (_ & _ & H8 & H3).
    split; [done|intros _].
    pose proof (Z.mul_pos_pos h w Hh Hw) as Hpos.
    apply bool_iff_sumbool in H8, H3.
    destruct H8 as [[E8 H8]|[E8 H8]], H3 as [[E3 H3]|[E3 H3]]; rewrite ?E8, ?E3; split_and!; intros ?; first [done|exfalso; lia].
Qed.

(** C2, as amended.  The severity is decided by the damage ratio
    (bounding-box area over image area) and by membership of the class in
    the critical set Major-Rear-Bumper-Dent, Front-Windscreen-Damage,
    Rear-windscreen-Damage.  Whenever the division gives a ratio, a critical
    class is severe above 0.05, moderate above 0.02 and up to 0.05, minor
    otherwise; any other class is severe above 0.08, moderate above 0.03
    and up to 0.08, minor otherwise; one of the three cases always applies
    and a ratio equal to a threshold is in the lower tier.  The ratio is the
    binary64 quotient the code computes; on an image of at most [2^48]
    pixels its comparisons with the float thresholds are the exact
    comparisons of area over image area with the decimals 0.05, 0.02, 0.08
    and 0.03.  On an image of positive height and width the ratio exists as
    soon as the area of the box is below [2^1023] times the image area in
    magnitude.  A box of zero or negative area (an empty one, or one
    inverted on one axis) is minor when its area is above [- 2^1023] times
    the image area, and the estimator raises [OverflowError] when the area
    is [2^1024] times the image area or more in magnitude.  Exchanging the
    two corners of a box does not change the result: a box inverted on both
    axes has a positive area and is rated by it, and it is the only
    degenerate box that can be rated above minor. *)
Theorem estimate_severity_thresholds x1 y1 x2 y2 damage_class h w :
  (forall ratio, int_truediv ((x2 - x1) * (y2 - y1)) (h * w) = Ok ratio ->
   exists sev, _estimate_severity x1 y1 x2 y2 damage_class (h, w) = Ok sev /\
    critical_types = ["Major-Rear-Bumper-Dent"; "Front-Windscreen-Damage";
                      "Rear-windscreen-Damage"]%string /\
    (damage_class ∈ critical_types ->
       (float_gt ratio lit_0_05 -> sev = "severe"%string) /\
       (float_gt ratio lit_0_02 /\ float_le ratio lit_0_05 -> sev = "moderate"%string) /\
       (float_le ratio lit_0_02 -> sev = "minor"%string) /\
       (float_gt ratio lit_0_05 \/
        (float_gt ratio lit_0_02 /\ float_le ratio lit_0_05) \/
        float_le ratio lit_0_02) /\
       (SFeqb ratio lit_0_05 -> sev = "moderate"%string) /\
       (SFeqb ratio lit_0_02 -> sev = "minor"%string)) /\
    (damage_class ∉ critical_types ->
       (float_gt ratio lit_0_08 -> sev = "severe"%string) /\
       (float_gt ratio lit_0_03 /\ float_le ratio lit_0_08 -> sev = "moderate"%string) /\
       (float_le ratio lit_0_03 -> sev = "minor"%string) /\
       (float_gt ratio lit_0_08 \/
        (float_gt ratio lit_0_03 /\ float_le ratio lit_0_08) \/
        float_le ratio lit_0_03) /\
       (SFeqb ratio lit_0_08 -> sev = "moderate"%string) /\
       (SFeqb ratio lit_0_03 -> sev = "minor"%string)) /\
    (0 < h -> 0 < w -> (x2 - x1) * (y2 - y1) <= 0 -> sev = "minor"%string) /\
    (0 < h -> 0 < w -> h * w <= 2 ^ 48 ->
       (damage_class ∈ critical_types ->
          (5 * (h * w) < 100 * ((x2 - x1) * (y2 - y1)) -> sev = "severe"%string) /\
          (2 * (h * w) < 100 * ((x2 - x1) * (y2 - y1)) <= 5 * (h * w) ->
           sev = "moderate"%string) /\
          (100 * ((x2 - x1) * (y2 - y1)) <= 2 * (h * w) -> sev = "minor"%string)) /\
       (damage_class ∉ critical_types ->
          (8 * (h * w) < 100 * ((x2 - x1) * (y2 - y1)) -> sev = "severe"%string) /\
          (3 * (h * w) < 100 * ((x2 - x1) * (y2 - y1)) <= 8 * (h * w) ->
           sev = "moderate"%string) /\
          (100 * ((x2 - x1) * (y2 - y1)) <= 3 * (h * w) -> sev = "minor"%string)))) /\
  (0 < h -> 0 < w -> Z.abs ((x2 - x1) * (y2 - y1)) < 2 ^ 1023 * (h * w) ->
   exists ratio, int_truediv ((x2 - x1) * (y2 - y1)) (h * w) = Ok ratio) /\
  (0 < h -> 0 < w -> - (2 ^ 1023 * (h * w)) < (x2 - x1) * (y2 - y1) <= 0 ->
   _estimate_severity x1 y1 x2 y2 damage_class (h, w) = Ok "minor"%string) /\
  (0 < h -> 0 < w -> 2 ^ 1024 * (h * w) <= Z.abs ((x2 - x1) * (y2 - y1)) ->
   _estimate_severity x1 y1 x2 y2 damage_class (h, w) = Raise OverflowError) /\
  _estimate_severity x2 y2 x1 y1 damage_class (h, w) =
    _estimate_severity x1 y1 x2 y2 damage_class (h, w) /\
  (0 < h -> 0 < w -> Spec.degenerate_box x1 y1 x2 y2 ->
   forall sev, _estimate_severity x1 y1 x2 y2 damage_class (h, w) = Ok sev ->
               sev <> "minor"%string -> x2 < x1 /\ y2 < y1).
Proof.
  assert (Hminor : 0 < h -> 0 < w -> (x2 - x1) * (y2 - y1) <= 0 ->
            forall sev, _estimate_severity x1 y1 x2 y2 damage_class (h, w) = Ok sev ->
                        sev = "minor"%string).
  { intros Hh Hw Ha sev Hsev.
    destruct (int_truediv ((x2 - x1) * (y2 - y1)) (h * w)) as [ratio|e] eqn:Hr.
    - destruct (estimate_severity_tiers x1 y1 x2 y2 damage_class h w ratio Hr)
        as (sev' & Hsev' & _ & _ & _ & Hm & _).
      rewrite Hsev in Hsev'. injection Hsev' as ->. by apply Hm.
    - unfold _estimate_severity in Hsev. rewrite Hr in Hsev. discriminate. }
  split_and!.
  - apply estimate_severity_tiers.
  - intros Hh Hw Hb.
    destruct (int_truediv_defined ((x2 - x1) * (y2 - y1)) (h * w)) as (q & Hq & _);
      [clear -Hh Hw; nia|rewrite (Z.abs_eq (h * w)) by (clear -Hh Hw; nia); exact Hb|].
    by exists q.
  - intros Hh Hw [Hlo Hhi].
    assert (HP : 0 <= 2 ^ 1023 * (h * w)).
    { apply Z.mul_nonneg_nonneg; [apply Z.pow_nonneg; lia|clear -Hh Hw; nia]. }
    destruct (int_truediv_defined ((x2 - x1) * (y2 - y1)) (h * w)) as (q & Hq & _).
    + clear -Hh Hw; nia.
    + rewrite (Z.abs_eq (h * w)) by (clear -Hh Hw; nia).
      rewrite Z.abs_neq by done. clear -Hlo. lia.
    + destruct (estimate_severity_tiers x1 y1 x2 y2 damage_class h w q Hq)
        as (sev & Hsev & _ & _ & _ & Hm & _).
      by rewrite Hsev, (Hm Hh Hw Hhi).
  - intros Hh Hw Hbig. unfold _estimate_severity.
    rewrite int_truediv_overflow; [reflexivity|clear -Hh Hw; nia|].
    by rewrite (Z.abs_eq (h * w)) by (clear -Hh Hw; nia).
  - unfold _estimate_severity.
    by replace ((x1 - x2) * (y1 - y2)) with ((x2 - x1) * (y2 - y1)) by ring.
  - intros Hh Hw Hdeg sev Hsev Hne.
    destruct (Z_lt_le_dec x2 x1) as [Hx|Hx], (Z_lt_le_dec y2 y1) as [Hy|Hy]; [done|..];
      exfalso; apply Hne, (Hminor Hh Hw); [|done| |done| |done].
    + clear -Hx Hy. nia.
    + clear -Hx Hy. nia.
    + unfold Spec.degenerate_box in Hdeg. clear -Hx Hy Hdeg. nia.
Qed.

(** C2, as stated, fails: a degenerate box need not be minor.  The box
    (300, 300, 0, 0), inverted on both axes, is rated severe on a 640x480
    image. *)
Lemma estimate_severity_degenerate :
  ~ (forall x1 y1 x2 y2 damage_class h w, 0 < h -> 0 < w ->
       Spec.degenerate_box x1 y1 x2 y2 ->
       _estimate_severity x1 y1 x2 y2 damage_class (h, w) = Ok "minor"%string).
Proof.
  intros H.
  specialize (H 300 300 0 0 "roof-dent"%string 480 640).
  assert (Hs : _estimate_severity 300 300 0 0 "roof-dent" (480, 640) = Ok "severe"%string)
    by (vm_compute; reflexivity).
  rewrite Hs in H. unfold Spec.degenerate_box in H.
  assert (Ok "severe"%string = Ok "minor"%string :> res string) as [=] by (apply H; lia).
Qed.

(** A box inverted on both axes is what [detect_damages] builds from a
    prediction of negative width and height. *)
Lemma inverted_detection :
  detect_damages {| predictions := Some [inverted] |} (480, 640) =
  Ok [ {| bbox := (350, 350, 50, 50); confidence := float_of_dyadic 3 (-2);
          class := "roof-dent"; severity := "severe"; estimated_cost := 1200 |} ].
Proof. vm_compute. reflexivity. Qed.

End Severity.

Lemma estimate_severity_thresholds_witness :
  (exists sev, _estimate_severity 150 150 250 250 "front-bumper-dent" (480, 640) = Ok sev /\
               sev = "moderate"%string) /\
  _estimate_severity 250 150 150 250 "front-bumper-dent" (480, 640) = Ok "minor"%string /\
  _estimate_severity 250 250 150 150 "front-bumper-dent" (480, 640) =
    _estimate_severity 150 150 250 250 "front-bumper-dent" (480, 640).
Proof.
  split; [|split].
  - destruct (estimate_severity_thresholds 150 150 250 250 "front-bumper-dent" 480 640)
      as (Htiers & _).
    destruct (Htiers (S754_finite false 4691249611844267 (-57)) eq_refl)
      as (sev & Hsev & _ & _ & Hstd & _).
    exists sev. split; [exact Hsev|].
    assert (Hnc : "front-bumper-dent"%string ∉ critical_types)
      by (apply (bool_decide_unpack _); reflexivity).
    destruct (Hstd Hnc) as (_ & Hmod & _).
    apply Hmod. split; vm_compute; exact I.
  - destruct (estimate_severity_thresholds 250 150 150 250 "front-bumper-dent" 480 640)
      as (_ & _ & Hminor & _).
    apply Hminor; [lia|lia|]. split; [|lia]. vm_compute. reflexivity.
  - destruct (estimate_severity_thresholds 150 150 250 250 "front-bumper-dent" 480 640)
      as (_ & _ & _ & _ & Hswap & _).
    exact Hswap.
Defined.

(** ** Totality of the severity estimator *)

Section Totality.

Ltac case_ifs :=
  repeat match goal with
         | |- context [if ?b then _ else _] => destruct b
         end.

Lemma estimate_severity_zero_area x1 y1 x2 y2 damage_class h w :
  h * w = 0 ->
  _estimate_severity x1 y1 x2 y2 damage_class (h, w) = Raise ZeroDivisionError.
Proof. intros Hz. unfold _estimate_severity. rewrite Hz. reflexivity. Qed.

Lemma estimate_severity_of_ratio x1 y1 x2 y2 damage_class h w ratio :
  int_truediv ((x2 - x1) * (y2 - y1)) (h * w) = Ok ratio ->
  exists sev, _estimate_severity x1 y1 x2 y2 damage_class (h, w) = Ok sev /\
              sev ∈ ["minor"; "moderate"; "severe"]%string.
Proof.
  intros Hr. unfold _estimate_severity. rewrite Hr. cbn [mbind res_bind].
  case_ifs; eexists; (split; [reflexivity|]); set_solver.
Qed.

Lemma estimate_severity_raise x1 y1 x2 y2 damage_class h w e :
  _estimate_severity x1 y1 x2 y2 damage_class (h, w) = Raise e ->
  int_truediv ((x2 - x1) * (y2 - y1)) (h * w) = Raise e.
Proof.
  unfold _estimate_severity.
  destruct (int_truediv _ _) as [ratio|e']; cbn [mbind res_bind].
  2: by intros [= ->].
  case_ifs; done.
Qed.

(** C10, as amended.  On an image of positive height and width, and a box
    whose area is below [2^1023] times the image area in magnitude (so that
    the ratio fits a float), the estimator returns one of minor, moderate
    and severe, whatever the box, degenerate or of negative area included.
    The division by zero is raised exactly on an image of zero area; the
    only other failure is the overflow of the ratio. *)
Theorem estimate_severity_total x1 y1 x2 y2 damage_class h w :
  (0 < h -> 0 < w -> Z.abs ((x2 - x1) * (y2 - y1)) < 2 ^ 1023 * (h * w) ->
   exists sev, _estimate_severity x1 y1 x2 y2 damage_class (h, w) = Ok sev /\
               sev ∈ ["minor"; "moderate"; "severe"]%string) /\
  (0 < h -> 0 < w ->
   _estimate_severity x1 y1 x2 y2 damage_class (h, w) <> Raise ZeroDivisionError) /\
  (h * w = 0 <->
   _estimate_severity x1 y1 x2 y2 damage_class (h, w) = Raise ZeroDivisionError) /\
  (forall e, _estimate_severity x1 y1 x2 y2 damage_class (h, w) = Raise e ->
             e = ZeroDivisionError \/
             (e = OverflowError /\ 2 ^ 1023 * Z.abs (h * w) <= Z.abs ((x2 - x1) * (y2 - y1)))).
Proof.
  assert (Hzd : _estimate_severity x1 y1 x2 y2 damage_class (h, w) = Raise ZeroDivisionError ->
                h * w = 0).
  { intros Hr. apply estimate_severity_raise in Hr.
    destruct (Z.eq_dec (h * w) 0) as [|Hne]; [done|].
    destruct (int_truediv_outcome ((x2 - x1) * (y2 - y1)) (h * w) Hne)
      as [Hov|(q & Hq & _)]; congruence. }
  split_and!.
  - intros Hh Hw Hb.
    destruct (int_truediv_defined ((x2 - x1) * (y2 - y1)) (h * w)) as (q & Hq & _);
      [lia|lia|].
    by apply estimate_severity_of_ratio with q.
  - intros Hh Hw Hr. apply Hzd in Hr. lia.
  - split; [apply estimate_severity_zero_area|apply Hzd].
  - intros e Hr. apply estimate_severity_raise in Hr.
    destruct (Z.eq_dec (h * w) 0) as [Hz|Hne].
    + rewrite Hz in Hr. left. cbn in Hr. congruence.
    + destruct (Z_lt_le_dec (Z.abs ((x2 - x1) * (y2 - y1))) (2 ^ 1023 * Z.abs (h * w)))
        as [Hlt|Hge].
      * destruct (int_truediv_defined _ _ Hne Hlt) as (q & Hq & _). congruence.
      * destruct (int_truediv_outcome ((x2 - x1) * (y2 - y1)) (h * w) Hne)
          as [Hov|(q & Hq & _)]; [|congruence].
        right. split; [congruence|done].
Qed.

Lemma estimate_severity_total_witness :
  exists sev, _estimate_severity 30 40 10 90 "roof-dent" (480, 640) = Ok sev /\
              sev ∈ ["minor"; "moderate"; "severe"]%string.
Proof.
  apply (estimate_severity_total 30 40 10 90 "roof-dent" 480 640); [lia|lia|].
  vm_compute. reflexivity.
Defined.

(** C10, as stated, fails: a box can be so large that the ratio overflows,
    on an image of positive size. *)
Lemma estimate_severity_overflow :
  ~ (forall x1 y1 x2 y2 damage_class h w, 0 < h -> 0 < w ->
       exists sev, _estimate_severity x1 y1 x2 y2 damage_class (h, w) = Ok sev /\
                   sev ∈ ["minor"; "moderate"; "severe"]%string).
Proof.
  intros H.
  destruct (H 0 0 (2 ^ 600) (2 ^ 600) "roof-dent"%string 1 1) as (sev & Hsev & _); [lia|lia|].
  vm_compute in Hsev. discriminate.
Qed.

End Totality.

(** ** The cost lookup *)

Section Costs.

(** C4. For each of the 23 defined classes and each of the three
    severities the estimated cost is the entry of the cost table; for a class
    that is absent from the table the cost is the fallback 100, whatever the
    severity.  The lookup is a total function: it cannot raise. *)
Theorem repair_cost_lookup :
  length DAMAGE_CLASSES = 23%nat /\
  NoDup DAMAGE_CLASSES /\
  dom REPAIR_COSTS = list_to_set DAMAGE_CLASSES /\
  (forall class_name severity,
     class_name ∈ DAMAGE_CLASSES ->
     severity ∈ ["minor"; "moderate"; "severe"]%string ->
     REPAIR_COSTS !! class_name ≫= (fun row => row !! severity) =
       Some (repair_cost class_name severity)) /\
  (fun c => (c, repair_cost c "minor", repair_cost c "moderate", repair_cost c "severe"))
     <$> DAMAGE_CLASSES =
    [ ("bonnet-dent", 150, 400, 800); ("doorouter-dent", 100, 350, 700);
      ("doorouter-paint-trace", 60, 180, 450); ("doorouter-scratch", 50, 150, 400);
      ("fender-dent", 120, 380, 750); ("front-bumper-dent", 100, 300, 600);
      ("front-bumper-scratch", 50, 150, 350); ("Front-Windscreen-Damage", 200, 500, 1000);
      ("Headlight-Damage", 150, 400, 800); ("Major-Rear-Bumper-Dent", 300, 700, 1500);
      ("medium-Bodypanel-Dent", 150, 400, 900); ("paint-chip", 40, 120, 300);
      ("paint-trace", 50, 150, 400); ("pillar-dent", 200, 500, 1000);
      ("quaterpanel-dent", 150, 400, 800); ("rear-bumper-dent", 100, 300, 600);
      ("rear-bumper-scratch", 50, 150, 350); ("Rear-windscreen-Damage", 200, 500, 1000);
      ("roof-dent", 200, 600, 1200); ("RunningBoard-Dent", 80, 250, 500);
      ("Sidemirror-Damage", 100, 300, 600); ("Signlight-Damage", 80, 200, 400);
      ("Taillight-Damage", 100, 300, 600) ]%string /\
  (forall class_name severity,
     class_name ∉ DAMAGE_CLASSES -> repair_cost class_name severity = 100) /\
  (forall class_name severity,
     REPAIR_COSTS !! class_name = None -> repair_cost class_name severity = 100).
Proof.
  assert (Hdom : dom REPAIR_COSTS = list_to_set DAMAGE_CLASSES).
  { apply (bool_decide_unpack _). by vm_compute. }
  split_and!.
  - reflexivity.
  - apply (bool_decide_unpack _). by vm_compute.
  - exact Hdom.
  - assert (Hall : Forall (fun c => Forall (fun s =>
        REPAIR_COSTS !! c ≫= (fun row => row !! s) = Some (repair_cost c s))
          ["minor"; "moderate"; "severe"]%string) DAMAGE_CLASSES).
    { apply (bool_decide_unpack _). by vm_compute. }
    intros class_name severity Hc Hs.
    rewrite Forall_forall in Hall. specialize (Hall _ Hc).
    rewrite Forall_forall in Hall. exact (Hall _ Hs).
  - vm_compute. reflexivity.
  - intros class_name severity Hnot. unfold repair_cost.
    assert (REPAIR_COSTS !! class_name = None) as ->.
    { apply not_elem_of_dom. rewrite Hdom. by rewrite elem_of_list_to_set. }
    cbn [default]. by rewrite lookup_empty.
  - intros class_name severity Hnone. unfold repair_cost. rewrite Hnone.
    cbn [default]. by rewrite lookup_empty.
Qed.

End Costs.

(** ** The detection builder *)

Section Builder.

Lemma for_each_Forall2 {A B} (f : A -> res B) xs ys :
  for_each f xs = Ok ys <-> Forall2 (fun x y => f x = Ok y) xs ys.
Proof.
  revert ys. induction xs as [|x xs IH]; intros ys; cbn [for_each].
  - split; [intros [= <-]; constructor|intros H; by inversion H].
  - destruct (f x) as [y|e] eqn:Hx; cbn [mbind res_bind].
    + destruct (for_each f xs) as [ys'|e] eqn:Hxs; cbn [mbind res_bind].
      * split.
        -- intros [= <-]. constructor; [done|by apply IH].
        -- intros H. inversion H as [|? y' ? ys'' Hy Hys]; subst.
           apply IH in Hys. congruence.
      * split; [done|]. intros H. inversion H as [|? y' ? ys'' Hy Hys]; subst.
        apply IH in Hys. done.
    + split; [done|]. intros H. inversion H; congruence.
Qed.

Lemma for_each_raise {A B} (f : A -> res B) xs e :
  for_each f xs = Raise e -> exists x, x ∈ xs /\ f x = Raise e.
Proof.
  induction xs as [|x xs IH]; cbn [for_each]; [done|].
  destruct (f x) as [y|e'] eqn:Hx; cbn [mbind res_bind].
  - destruct (for_each f xs) as [ys'|e'] eqn:Hxs; cbn [mbind res_bind]; [done|].
    intros [= ->]. destruct IH as (x' & Hin & Hx'); [done|].
    exists x'. split; [by right|done].
  - intros [= ->]. exists x. split; [by left|done].
Qed.

(** What a detection keeps of its prediction. *)
Lemma detection_of_fields img_shape pred det :
  detection_of img_shape pred = Ok det ->
  class det = pred_class pred /\ confidence det = pred_confidence pred /\
  estimated_cost det = repair_cost (class det) (severity det).
Proof.
  unfold detection_of.
  repeat match goal with
         | |- context [mbind _ ?m] =>
             destruct m; cbn [mbind res_bind]; [|discriminate]
         end.
  intros [= <-]. done.
Qed.

(** C8. An empty list of predictions, and a response without the key
    'predictions', both give the empty list of detections, without an
    exception and whatever the image; the total estimated cost of no
    detection is 0, and so is the comparison of two such responses. *)
Theorem detect_damages_empty img_shape :
  detect_damages {| predictions := Some [] |} img_shape = Ok [] /\
  detect_damages {| predictions := None |} img_shape = Ok [] /\
  total_estimated_cost [] = 0 /\
  (forall absent1 absent2 shape2,
     absent1 ∈ [None; Some []] -> absent2 ∈ [None; Some []] ->
     exists cmp,
       compare_images {| predictions := absent1 |} img_shape
                      {| predictions := absent2 |} shape2 = Ok cmp /\
       new_damages cmp = [] /\ total_new_cost cmp = 0).
Proof.
  split_and!; try reflexivity.
  intros absent1 absent2 shape2 H1 H2.
  repeat (apply elem_of_cons in H1 as [->|H1]); [..|by apply elem_of_nil in H1];
    (repeat (apply elem_of_cons in H2 as [->|H2]); [..|by apply elem_of_nil in H2]);
    eexists; split_and!; reflexivity.
Qed.

(** C9. The detections are the predictions, one for one and in the same
    order: nothing is sorted, merged or dropped.  The confidence is copied
    and looked at by nothing, so no threshold on it, [CONFIDENCE_THRESHOLD]
    or another, is applied. *)
Theorem detect_damages_order img_shape preds :
  (forall dets,
     detect_damages {| predictions := Some preds |} img_shape = Ok dets <->
     Forall2 (fun pred det => detection_of img_shape pred = Ok det) preds dets) /\
  (forall dets,
     detect_damages {| predictions := Some preds |} img_shape = Ok dets ->
     length dets = length preds /\
     class <$> dets = pred_class <$> preds /\
     confidence <$> dets = pred_confidence <$> preds) /\
  (forall e,
     detect_damages {| predictions := Some preds |} img_shape = Raise e ->
     exists pred, pred ∈ preds /\ detection_of img_shape pred = Raise e) /\
  (forall pred c,
     detection_of img_shape
       {| pred_x := pred_x pred; pred_y := pred_y pred;
          pred_width := pred_width pred; pred_height := pred_height pred;
          pred_class := pred_class pred; pred_confidence := c |} =
     (fun det => {| bbox := bbox det; confidence := c; class := class det;
                    severity := severity det; estimated_cost := estimated_cost det |})
       <$> detection_of img_shape pred).
Proof.
  split_and!.
  - intros dets. apply for_each_Forall2.
  - intros dets Hd. apply for_each_Forall2 in Hd.
    induction Hd as [|pred det preds' dets' Hdet _ IH]; [done|].
    destruct IH as (IH1 & IH2 & IH3).
    apply detection_of_fields in Hdet as (Hc & Hf & _).
    cbn. rewrite IH1, IH2, IH3, Hc, Hf. done.
  - intros e. apply for_each_raise.
  - intros pred c. unfold detection_of. cbn [pred_x pred_y pred_width pred_height pred_class
                                               pred_confidence].
    repeat match goal with
           | |- context [mbind _ ?m] =>
               destruct m; cbn [mbind res_bind fmap res_fmap]; [|reflexivity]
           end.
    reflexivity.
Qed.

Lemma detect_damages_order_witness :
  exists dets,
    detect_damages {| predictions := Some [centered "roof-dent" (float_of_dyadic 9 (-4));
                                           centered "bonnet-dent" (float_of_dyadic 1 (-4));
                                           centered "roof-dent" (float_of_dyadic 1 (-4))] |}
                   (480, 640) = Ok dets /\
    length dets = 3%nat /\
    class <$> dets = ["roof-dent"; "bonnet-dent"; "roof-dent"]%string /\
    confidence <$> dets = [float_of_dyadic 9 (-4); float_of_dyadic 1 (-4);
                           float_of_dyadic 1 (-4)] /\
    float_gt CONFIDENCE_THRESHOLD (float_of_dyadic 1 (-4)).
Proof.
  eexists. split; [vm_compute; reflexivity|].
  destruct (detect_damages_order (480, 640)
              [centered "roof-dent" (float_of_dyadic 9 (-4));
               centered "bonnet-dent" (float_of_dyadic 1 (-4));
               centered "roof-dent" (float_of_dyadic 1 (-4))]) as (_ & Hpres & _).
  edestruct Hpres as (Hlen & Hcls & Hconf); [vm_compute; reflexivity|].
  split; [exact Hlen|]. split; [exact Hcls|]. split; [exact Hconf|].
  vm_compute. exact I.
Defined.

End Builder.

(** ** Bounding-box corners *)

Section Corners.

Lemma int_of_float_truncation x z : int_of_float x = Ok z -> Spec.truncation_of x z.
Proof.
  destruct x as [s|s| |s m e]; cbn; try discriminate.
  - by intros [= <-].
  - intros [= <-].
    assert (Ha : exists a, 0 <= a /\
              match e with
              | Zneg n => Z.shiftr (Zpos m) (Zpos n)
              | _ => Z.shiftl (Zpos m) e
              end = a /\
              a * 2 ^ Z.max 0 (- e) <= Zpos m * 2 ^ Z.max 0 e < (a + 1) * 2 ^ Z.max 0 (- e)).
    { destruct e as [|n|n].
      - exists (Zpos m). rewrite Z.shiftl_0_r.
        change (Z.max 0 (- 0)) with 0. change (Z.max 0 0) with 0.
        rewrite Z.pow_0_r. lia.
      - exists (Zpos m * 2 ^ Zpos n). rewrite Z.shiftl_mul_pow2 by lia.
        replace (Z.max 0 (- Zpos n)) with 0 by lia.
        replace (Z.max 0 (Zpos n)) with (Zpos n) by lia.
        assert (0 < 2 ^ Zpos n) by (apply Z.pow_pos_nonneg; lia). nia.
      - exists (Zpos m / 2 ^ Zpos n). rewrite Z.shiftr_div_pow2 by lia.
        replace (Z.max 0 (- Zneg n)) with (Zpos n) by lia.
        replace (Z.max 0 (Zneg n)) with 0 by lia.
        assert (H2 : 0 < 2 ^ Zpos n) by (apply Z.pow_pos_nonneg; lia).
        pose proof (Z.div_pos (Zpos m) _ ltac:(lia) H2).
        pose proof (Z.mul_div_le (Zpos m) _ H2).
        pose proof (Z.mul_succ_div_gt (Zpos m) _ H2).
        split_and!; [lia|done|lia|lia]. }
    destruct Ha as (a & Ha0 & -> & Hb).
    destruct s.
    + rewrite Z.abs_opp, Z.abs_eq by lia. split; [done|lia].
    + rewrite Z.abs_eq by lia. split; [done|lia].
Qed.

Lemma truncation_of_unique x z z' :
  Spec.truncation_of x z -> Spec.truncation_of x z' -> z = z'.
Proof.
  destruct x as [s|s| |s m e]; cbn; try done; [congruence|].
  intros [[H1 H2] Hs] [[H1' H2'] Hs'].
  assert (0 < 2 ^ Z.max 0 (- e)) by (apply Z.pow_pos_nonneg; lia).
  assert (Z.abs z = Z.abs z') by nia.
  destruct s; lia.
Qed.

(** C3, as amended.  The corners of the bounding box are the center plus
    and minus half the width and height, truncated toward zero by [int()]:
    [x1 = int(xc - w/2)], [y1 = int(yc - h/2)], [x2 = int(xc + w/2)],
    [y2 = int(yc + h/2)], the integer part of each number and not the
    nearest integer. *)
Theorem bbox_truncated img_shape pred det :
  detection_of img_shape pred = Ok det ->
  exists hw hh x1 y1 x2 y2,
    float_truediv (pred_width pred) (float_of_int 2) = Ok hw /\
    float_truediv (pred_height pred) (float_of_int 2) = Ok hh /\
    bbox det = (x1, y1, x2, y2) /\
    Spec.truncation_of (float_sub (pred_x pred) hw) x1 /\
    Spec.truncation_of (float_sub (pred_y pred) hh) y1 /\
    Spec.truncation_of (float_add (pred_x pred) hw) x2 /\
    Spec.truncation_of (float_add (pred_y pred) hh) y2.
Proof.
  unfold detection_of.
  destruct (float_truediv (pred_width pred) _) as [hw|] eqn:Hhw;
    cbn [mbind res_bind]; [|discriminate].
  destruct (int_of_float (float_sub _ hw)) as [x1|] eqn:Hx1;
    cbn [mbind res_bind]; [|discriminate].
  destruct (float_truediv (pred_height pred) _) as [hh|] eqn:Hhh;
    cbn [mbind res_bind]; [|discriminate].
  destruct (int_of_float (float_sub _ hh)) as [y1|] eqn:Hy1;
    cbn [mbind res_bind]; [|discriminate].
  destruct (int_of_float (float_add _ hw)) as [x2|] eqn:Hx2;
    cbn [mbind res_bind]; [|discriminate].
  destruct (int_of_float (float_add _ hh)) as [y2|] eqn:Hy2;
    cbn [mbind res_bind]; [|discriminate].
  destruct (_estimate_severity _ _ _ _ _ _) as [sev|]; cbn [mbind res_bind]; [|discriminate].
  intros [= <-]. exists hw, hh, x1, y1, x2, y2. cbn [bbox].
  split_and!; try done; by apply int_of_float_truncation.
Qed.

Lemma off_center_detection :
  detection_of (480, 640) off_center =
    Ok {| bbox := (150, 150, 250, 250); confidence := pred_confidence off_center;
          class := "front-bumper-dent"; severity := "moderate"; estimated_cost := 300 |}.
Proof. vm_compute. reflexivity. Qed.

Lemma bbox_truncated_witness :
  exists det, detection_of (480, 640) off_center = Ok det /\
              bbox det = (150, 150, 250, 250) /\
              Spec.truncation_of (float_of_dyadic 603 (-2)) 150.
Proof.
  eexists. split; [exact off_center_detection|]. split; [reflexivity|].
  destruct (bbox_truncated (480, 640) off_center _ off_center_detection)
    as (hw & hh & x1 & y1 & x2 & y2 & Hhw & Hhh & Hb & H1 & _).
  vm_compute in Hhw. injection Hhw as <-. injection Hb as <- _ _ _.
  exact H1.
Defined.

(** C3, as stated, fails: the center (200.75, 200.75) with width and height
    100 gives the corners 150 and 250, where rounding to nearest gives 151
    and 251. *)
Lemma bbox_not_rounded :
  ~ (forall img_shape pred det,
       detection_of img_shape pred = Ok det -> Spec.rounded_bbox pred = Ok (bbox det)).
Proof.
  intros H.
  specialize (H (480, 640) off_center _ off_center_detection).
  vm_compute in H. discriminate.
Qed.

End Corners.

(** ** The documented scenario *)

Section Scenario.

(** C6. On a 640 by 480 image, the prediction of class front-bumper-dent
    centered at (200, 200) with width and height 100 becomes the detection
    of bounding box (150, 150, 250, 250), of severity moderate and of
    estimated cost 300: the box area is 10000, the image area 307200 and
    the ratio between 0.0325 and 0.0326. *)
Theorem scenario_front_bumper_dent c :
  let pred := {| pred_x := float_of_int 200; pred_y := float_of_int 200;
                 pred_width := float_of_int 100; pred_height := float_of_int 100;
                 pred_class := "front-bumper-dent"; pred_confidence := c |} in
  detect_damages {| predictions := Some [pred] |} (480, 640) =
    Ok [ {| bbox := (150, 150, 250, 250); confidence := c;
            class := "front-bumper-dent"; severity := "moderate";
            estimated_cost := 300 |} ] /\
  (250 - 150) * (250 - 150) = 10000 /\
  480 * 640 = 307200 /\
  (exists m e, int_truediv 10000 307200 = Ok (S754_finite false m e) /\
               325 * 2 ^ (- e) < 10000 * Zpos m < 326 * 2 ^ (- e)) /\
  _estimate_severity 150 150 250 250 "front-bumper-dent" (480, 640) = Ok "moderate"%string /\
  repair_cost "front-bumper-dent" "minor" = 100 /\
  repair_cost "front-bumper-dent" "moderate" = 300 /\
  repair_cost "front-bumper-dent" "severe" = 600.
Proof.
  split_and!; try (vm_compute; reflexivity).
  eexists _, _. split; [vm_compute; reflexivity|]. vm_compute. done.
Qed.

End Scenario.

(** ** The pickup/return comparison *)

Section Comparison.

Implicit Types (pickup ret : list Detection) (C : string).

Lemma count_fmap_class ret C :
  count (class <$> ret) C = length (filter (fun d => class d = C) ret).
Proof.
  unfold count. induction ret as [|d ret IH]; [done|].
  rewrite fmap_cons, !filter_cons. destruct (decide (class d = C)); cbn; lia.
Qed.

Lemma count_zero (l : list string) C : count l C = 0%nat <-> C ∉ l.
Proof.
  unfold count. induction l as [|x l IH].
  - split; [intros _; apply not_elem_of_nil|done].
  - rewrite filter_cons, not_elem_of_cons.
    destruct (decide (x = C)) as [->|Hne]; cbn.
    + split; [lia|by intros []].
    + rewrite IH. split; [by intros ?; split|by intros []].
Qed.

(** What the filter of [compare_images] keeps of the detections of one
    class, for any two lists of class names to count in. *)
Lemma filter_class_new (pc rc : list string) C (l : list Detection) :
  filter (fun d => class d = C)
    (filter (fun d => class d ∉ pc \/ (count pc (class d) < count rc (class d))%nat) l) =
  if decide (C ∉ pc \/ (count pc C < count rc C)%nat)
  then filter (fun d => class d = C) l else [].
Proof.
  induction l as [|d l IH]; [by destruct (decide _)|].
  rewrite (filter_cons _ d l).
  destruct (decide (class d ∉ pc \/ (count pc (class d) < count rc (class d))%nat))
    as [HP|HP].
  - rewrite !(filter_cons (fun d => class d = C)).
    destruct (decide (class d = C)) as [HC|HC]; rewrite IH; [|done].
    rewrite HC in HP. by rewrite !decide_True by done.
  - rewrite IH, (filter_cons (fun d => class d = C)).
    destruct (decide (class d = C)) as [HC|HC]; [|done].
    rewrite HC in HP. by rewrite !decide_False by done.
Qed.

Lemma new_damages_of_class pickup ret C :
  filter (fun d => class d = C) (new_damages (compare_damages pickup ret)) =
  if decide (count (class <$> pickup) C < count (class <$> ret) C)%nat
  then filter (fun d => class d = C) ret else [].
Proof.
  cbn [compare_damages new_damages]. rewrite filter_class_new.
  destruct (decide (count (class <$> pickup) C < count (class <$> ret) C)%nat) as [Hlt|Hge].
  - by rewrite decide_True by (by right).
  - destruct (decide (_ \/ _)) as [[Hnot|Hlt]|Hno]; [|done|done].
    apply count_zero in Hnot.
    assert (Hr : count (class <$> ret) C = 0%nat) by lia.
    rewrite count_fmap_class in Hr. by apply nil_length_inv in Hr.
Qed.

(** The new damages are return-side detections, in the order of the
    return list. *)
Lemma new_damages_sublist pickup ret :
  sublist (new_damages (compare_damages pickup ret)) ret.
Proof. apply sublist_filter. Qed.

(** C5. If a class has no more return-side than pickup-side detections,
    none of its return-side detections is new; if a class is absent from
    the pickup list, all of its return-side detections are new.  In
    particular two pickup detections and one return detection of one class
    give nothing new, and the only return detection after an empty pickup
    list is new. *)
Theorem compare_counts pickup ret C :
  ((count (class <$> ret) C <= count (class <$> pickup) C)%nat ->
   forall d, d ∈ new_damages (compare_damages pickup ret) -> class d <> C) /\
  (C ∉ class <$> pickup ->
   (forall d, d ∈ ret -> class d = C -> d ∈ new_damages (compare_damages pickup ret)) /\
   filter (fun d => class d = C) (new_damages (compare_damages pickup ret)) =
     filter (fun d => class d = C) ret) /\
  (forall a1 a2 a3, class a1 = C -> class a2 = C -> class a3 = C ->
     new_damages (compare_damages [a1; a2] [a3]) = []) /\
  (forall b, new_damages (compare_damages [] [b]) = [b]).
Proof.
  split_and!.
  - intros Hle d Hd Hc.
    assert (Hin : d ∈ filter (fun d => class d = C) (new_damages (compare_damages pickup ret)))
      by (by apply list_elem_of_filter).
    rewrite new_damages_of_class, decide_False in Hin by lia.
    by apply elem_of_nil in Hin.
  - intros Hnot. split.
    + intros d Hd Hc. cbn [compare_damages new_damages].
      apply list_elem_of_filter. split; [|done]. left. by rewrite Hc.
    + cbn [compare_damages new_damages]. rewrite filter_class_new.
      by rewrite decide_True by (by left).
  - intros a1 a2 a3 H1 H2 H3. cbn [compare_damages new_damages].
    rewrite filter_cons, decide_False; [done|].
    rewrite !fmap_cons, H1, H2, H3. unfold count.
    rewrite !filter_cons, !decide_True by done. cbn. intros [Hn|Hn]; [|lia].
    apply Hn. by left.
  - intros b. cbn [compare_damages new_damages].
    rewrite filter_cons, decide_True; [done|]. left. cbn. apply not_elem_of_nil.
Qed.

(** C1, as amended.  The comparison goes by the counts of a class alone,
    with no matching of occurrences: when a class has more return-side than
    pickup-side detections, all of its return-side detections are new, in
    the order of the return list, the first ones included; otherwise none
    is.  In particular one pickup detection and two return detections of
    one class give both return detections as new. *)
Theorem compare_by_class_count pickup ret C :
  filter (fun d => class d = C) (new_damages (compare_damages pickup ret)) =
    (if decide (count (class <$> pickup) C < count (class <$> ret) C)%nat
     then filter (fun d => class d = C) ret else []) /\
  sublist (new_damages (compare_damages pickup ret)) ret /\
  ((count (class <$> pickup) C = 0 \/
    count (class <$> ret) C <= count (class <$> pickup) C)%nat ->
   filter (fun d => class d = C) (new_damages (compare_damages pickup ret)) =
     Spec.new_of_class C pickup ret) /\
  (forall a1 a2 a3, class a1 = C -> class a2 = C -> class a3 = C ->
     new_damages (compare_damages [a1] [a2; a3]) = [a2; a3]).
Proof.
  split_and!.
  - apply new_damages_of_class.
  - apply new_damages_sublist.
  - intros Hpr. rewrite new_damages_of_class. unfold Spec.new_of_class.
    destruct Hpr as [Hp|Hle].
    + rewrite Hp. cbn [Nat.min drop].
      destruct (decide _) as [|Hge]; [done|].
      assert (Hr : count (class <$> ret) C = 0%nat) by lia.
      rewrite count_fmap_class in Hr. by apply nil_length_inv in Hr.
    + rewrite decide_False by lia. rewrite Nat.min_r by done.
      rewrite count_fmap_class. by rewrite drop_all.
  - intros a1 a2 a3 H1 H2 H3. cbn [compare_damages new_damages].
    assert (Hlt : (count (class <$> [a1]) C < count (class <$> [a2; a3]) C)%nat).
    { rewrite !fmap_cons, H1, H2, H3. unfold count.
      rewrite !filter_cons, !decide_True by done. cbn. lia. }
    rewrite filter_cons, decide_True by (right; by rewrite H2).
    rewrite filter_cons, decide_True by (right; by rewrite H3).
    done.
Qed.

(** C1, as stated, fails: with one pickup detection and two return
    detections of one class, the first return detection is reported as new
    too. *)
Lemma compare_not_by_occurrence :
  ~ (forall pickup ret C,
       filter (fun d => class d = C) (new_damages (compare_damages pickup ret)) =
       Spec.new_of_class C pickup ret).
Proof.
  intros H.
  specialize (H [dent_at 10] [dent_at 10; dent_at 300] "roof-dent"%string).
  vm_compute in H. discriminate.
Qed.

End Comparison.

(** ** The annotation renderer *)

Section Rendering.

Context {font : Type} (the_font : font).
Context (rectangle_outline : Z * Z * Z * Z -> string -> Z -> Image -> Image).
Context (rectangle_fill : Z * Z * Z * Z -> string -> Image -> Image).
Context (text : Z * Z -> string -> string -> font -> Image -> Image).
Context (format_label : string -> float -> string).

Local Abbreviation draw_one :=
  (draw_one font the_font rectangle_outline rectangle_fill text format_label).
Local Abbreviation draw_detections :=
  (draw_detections font the_font rectangle_outline rectangle_fill text format_label).

(** A drawing call touches the image behind the handle only. *)
Lemma draw_one_other color_map draw (σ : store) det l :
  l <> draw -> draw_one color_map draw σ det !! l = σ !! l.
Proof.
  intros Hne. unfold DamageDetector.draw_one.
  destruct (bbox det) as [[[x1 y1] x2] y2].
  by rewrite !lookup_alter_ne.
Qed.

Lemma draw_all_other color_map draw detections : forall (σ : store) l,
  l <> draw -> foldl (draw_one color_map draw) σ detections !! l = σ !! l.
Proof.
  induction detections as [|det dets IH]; intros σ l Hne; [done|].
  cbn [foldl]. rewrite IH by done. by apply draw_one_other.
Qed.

Lemma draw_all_live color_map draw detections : forall (σ : store),
  is_Some (σ !! draw) -> is_Some (foldl (draw_one color_map draw) σ detections !! draw).
Proof.
  induction detections as [|det dets IH]; intros σ Hl; [done|].
  cbn [foldl]. apply IH. unfold DamageDetector.draw_one.
  destruct (bbox det) as [[[x1 y1] x2] y2].
  rewrite !lookup_alter_eq. destruct Hl as [img ->]. by eexists.
Qed.

(** C7. Rendering never mutates its input image, nor any other image that
    exists when it is called: it draws on a fresh copy.  With no detection
    the copy has the pixels of the input, so rendering the output of such a
    rendering again, with no detection, gives the input's pixels once
    more. *)
Theorem draw_detections_copy (σ : store) image img detections color_map :
  σ !! image = Some img ->
  exists σ' out,
    draw_detections σ image detections color_map = Some (σ', out) /\
    (out ∉ dom σ) /\ out <> image /\
    (forall l, l ∈ dom σ -> σ' !! l = σ !! l) /\
    σ' !! image = Some img /\
    is_Some (σ' !! out) /\
    (detections = [] ->
     σ' !! out = Some img /\
     forall color_map', exists σ'' out',
       draw_detections σ' out [] color_map' = Some (σ'', out') /\
       σ'' !! out' = Some img /\ σ'' !! out = Some img /\ σ'' !! image = Some img /\
       out' <> out /\ out' <> image).
Proof.
  intros Himg. unfold DamageDetector.draw_detections. rewrite Himg. cbn [mbind option_bind].
  set (out := fresh (dom σ)).
  assert (Hfresh : out ∉ dom σ) by apply is_fresh.
  assert (Hne : out <> image).
  { intros ->. apply Hfresh. apply elem_of_dom. by eexists. }
  eexists _, out. split; [reflexivity|].
  split_and!; try done.
  - intros l Hl. rewrite draw_all_other by (intros ->; done).
    apply lookup_insert_ne. by intros ->.
  - rewrite draw_all_other by done. by rewrite lookup_insert_ne.
  - apply draw_all_live. rewrite lookup_insert_eq. by eexists.
  - intros ->. cbn [foldl]. split; [by rewrite lookup_insert_eq|].
    intros color_map'. rewrite lookup_insert_eq. cbn [mbind option_bind].
    set (out' := fresh (dom (<[out:=img]> σ))).
    assert (Hfresh' : out' ∉ dom (<[out:=img]> σ)) by apply is_fresh.
    assert (out' <> out).
    { intros Heq. apply Hfresh'. rewrite Heq. apply elem_of_dom.
      rewrite lookup_insert_eq. by eexists. }
    assert (out' <> image).
    { intros Heq. apply Hfresh'. rewrite Heq. apply elem_of_dom.
      rewrite lookup_insert_ne by done. by eexists. }
    eexists _, out'. split; [reflexivity|].
    split_and!; try done.
    + by rewrite lookup_insert_eq.
    + rewrite lookup_insert_ne by done. by rewrite lookup_insert_eq.
    + rewrite !lookup_insert_ne by done. done.
Qed.

End Rendering.

Lemma draw_detections_copy_witness :
  exists σ' out,
    draw_detections unit tt (fun _ _ _ im => im) (fun _ _ im => im)
      (fun _ _ _ _ im => im) (fun c _ => c)
      {[ 1%positive := two_pixels ]}
      1%positive [] None = Some (σ', out) /\
    σ' !! 1%positive = Some two_pixels /\
    σ' !! out = Some two_pixels.
Proof.
  destruct (draw_detections_copy (font := unit) tt (fun _ _ _ im => im) (fun _ _ im => im)
              (fun _ _ _ _ im => im) (fun c _ => c)
              {[ 1%positive := two_pixels ]}
              1%positive _ [] None (lookup_singleton_eq _ _))
    as (σ' & out & Hd & _ & _ & _ & Hin & _ & Hempty).
  exists σ', out. split; [exact Hd|]. split; [exact Hin|].
  exact (proj1 (Hempty eq_refl)).
Defined.

(** * Further properties *)

(** ** The detection builder on bounded predictions *)

Section Magnitude.

Lemma Zpos_iter_xO m d : Zpos (Pos.iter xO m d) = Zpos m * 2 ^ Zpos d.
Proof.
  induction d as [|d IH] using Pos.peano_ind.
  - cbn. lia.
  - rewrite Pos.iter_succ, Pos2Z.inj_xO, IH, Pos2Z.inj_succ, Z.pow_succ_r by lia. lia.
Qed.

Lemma Zdigits2_mul_pow2 m k : 0 < m -> 0 <= k -> Zdigits2 (m * 2 ^ k) = Zdigits2 m + k.
Proof.
  intros Hm Hk. assert (0 < 2 ^ k) by (apply Z.pow_pos_nonneg; lia).
  rewrite !Zdigits2_log2 by nia. rewrite Z.log2_mul_pow2 by lia. lia.
Qed.

(** The rounding step keeps a number below [2^k] below [2^(k+1)]. *)
Lemma binary_round_aux_magnitude sx mx ex lx k :
  0 <= mx -> -1074 <= k <= 1022 -> ex <= 971 -> Zdigits2 mx + ex <= k ->
  finite_signed sx (binary_round_aux prec emax sx mx ex lx) /\
  magnitude_below (k + 1) (binary_round_aux prec emax sx mx ex lx).
Proof.
  intros Hm Hk Hex Hd.
  pose proof (binary_round_aux_no_overflow sx mx ex lx Hm Hex ltac:(lia)) as Hno.
  pose proof (binary_round_aux_rounded sx mx ex lx Hm) as Hr.
  revert Hno Hr. unfold binary_round_aux.
  pose proof (shr_fexp_spec mx ex lx Hm) as [He1 Hm1].
  destruct (shr_fexp prec emax mx ex lx) as [r1 e1]; cbn [fst snd] in *.
  pose proof (round_nearest_even_bounds (shr_m r1) (loc_of_shr_record r1)) as Hrne.
  assert (Hr1 : 0 <= shr_m r1) by (rewrite Hm1; apply Z.div_pos; [lia|apply Z.pow_pos_nonneg; lia]).
  set (m2 := round_nearest_even _ _) in *.
  pose proof (shr_fexp_spec m2 e1 loc_Exact ltac:(lia)) as [He2 Hm2].
  destruct (shr_fexp prec emax m2 e1 loc_Exact) as [r2 e2]; cbn [fst snd] in *.
  assert (Hfexp : forall t, fexp prec emax t = Z.max (t - 53) (-1074)) by reflexivity.
  rewrite Hfexp in He1, He2.
  assert (Hd2 : Zdigits2 m2 + e1 <= k + 1).
  { pose proof (Zdigits2_mono m2 (shr_m r1 + 1) ltac:(lia)).
    pose proof (Zdigits2_succ (shr_m r1) Hr1).
    pose proof (Zdigits2_nonneg mx).
    destruct (Z.eq_dec (shr_m r1) 0) as [Hz|Hz].
    - rewrite Hz in *. cbn in *. lia.
    - assert (Zdigits2 (shr_m r1) + (e1 - ex) <= Zdigits2 mx); [|lia].
      apply Zdigits2_shift; [lia|lia|].
      rewrite Hm1. rewrite Z.mul_comm. apply Z.mul_div_le.
      apply Z.pow_pos_nonneg; lia. }
  destruct (shr_m r2) as [|p|p] eqn:Hp; intros Hno Hr.
  - split; [constructor|exact I].
  - destruct (e2 <=? emax - prec); [|done].
    split; [constructor|]. cbn [magnitude_below].
    assert (Zdigits2 (Zpos p) + (e2 - e1) <= Zdigits2 m2); [|lia].
    apply Zdigits2_shift; [lia|lia|].
    rewrite Hm2. rewrite Z.mul_comm. apply Z.mul_div_le.
    apply Z.pow_pos_nonneg; lia.
  - inversion Hr.
Qed.

(** [binary_round] applies the rounding step to the same number. *)
Lemma binary_round_magnitude sx mx ex k :
  -1074 <= k <= 972 -> Zdigits2 (Zpos mx) + ex <= k ->
  finite_signed sx (binary_round prec emax sx mx ex) /\
  magnitude_below (k + 1) (binary_round prec emax sx mx ex).
Proof.
  intros Hk Hd. unfold binary_round, shl_align.
  assert (Hpos : 0 < Zdigits2 (Zpos mx)) by (cbn; lia).
  destruct (fexp prec emax (Zpos (digits2_pos mx) + ex) - ex) as [|d|d] eqn:Hsh.
  - apply binary_round_aux_magnitude; [lia|lia|lia|done].
  - apply binary_round_aux_magnitude; [lia|lia|lia|done].
  - apply binary_round_aux_magnitude; [lia|lia| |].
    + change (fexp prec emax ?t) with (Z.max (t - 53) (-1074)) in *.
      cbn [Zdigits2] in *. lia.
    + rewrite Zpos_iter_xO, Zdigits2_mul_pow2 by lia.
      change (fexp prec emax ?t) with (Z.max (t - 53) (-1074)) in *.
      cbn [Zdigits2] in *. lia.
Qed.


Lemma Zdigits2_abs z : Zdigits2 (Z.abs z) = Zdigits2 z.
Proof. by destruct z. Qed.

Lemma binary_normalize_magnitude z e k :
  -1074 <= k <= 972 -> Zdigits2 z + e <= k ->
  exists s, finite_signed s (binary_normalize prec emax z e false) /\
            magnitude_below (k + 1) (binary_normalize prec emax z e false).
Proof.
  intros Hk Hd. destruct z as [|m|m]; cbn [binary_normalize].
  - exists false. split; [constructor|exact I].
  - exists false. by apply binary_round_magnitude.
  - exists true. by apply binary_round_magnitude.
Qed.

Lemma shl_align_fst mx ex ez : ez <= ex ->
  Zpos (fst (shl_align mx ex ez)) = Zpos mx * 2 ^ (ex - ez).
Proof.
  intros Hle. unfold shl_align.
  destruct (ez - ex) as [|d|d] eqn:Hd; cbn [fst]; try lia.
  - replace (ex - ez) with 0 by lia. lia.
  - rewrite Zpos_iter_xO. f_equal. f_equal. lia.
Qed.

(** The aligned mantissas of a sum or a difference, and their bound. *)
Lemma aligned_bound mx ex ez k :
  ez <= ex -> Zdigits2 (Zpos mx) + ex <= k ->
  0 < Zpos (fst (shl_align mx ex ez)) < 2 ^ (k - ez).
Proof.
  intros Hle Hd. rewrite shl_align_fst by done.
  assert (0 < 2 ^ (ex - ez)) by (apply Z.pow_pos_nonneg; lia).
  split; [lia|].
  pose proof (Zdigits2_spec (Zpos mx) ltac:(lia)) as [_ Hhi].
  assert (Hpos : 0 < Zdigits2 (Zpos mx)) by (cbn; lia).
  apply Z.lt_le_trans with (2 ^ Zdigits2 (Zpos mx) * 2 ^ (ex - ez)).
  - apply Z.mul_lt_mono_pos_r; done.
  - rewrite <- Z.pow_add_r by lia. apply Z.pow_le_mono_r; lia.
Qed.

Lemma sum_magnitude (a b : Z) ez k (z : Z) :
  0 < a < 2 ^ (k - ez) -> 0 < b < 2 ^ (k - ez) -> Z.abs z <= a + b ->
  Zdigits2 z + ez <= k + 1.
Proof.
  intros Ha Hb Hz.
  assert (Hk : 0 <= k - ez).
  { destruct (Z_lt_le_dec (k - ez) 0) as [Hneg|]; [|done].
    rewrite Z.pow_neg_r in Ha by done. lia. }
  rewrite <- Zdigits2_abs.
  assert (Zdigits2 (Z.abs z) <= k - ez + 1); [|lia].
  apply Zdigits2_bound; [lia|]. rewrite Z.pow_add_r by lia. lia.
Qed.

(** Sums and differences of numbers below [2^k] are numbers below
    [2^(k+2)]. *)
Lemma float_add_magnitude sx x sy y k :
  -1074 <= k <= 970 -> finite_signed sx x -> finite_signed sy y ->
  magnitude_below k x -> magnitude_below k y ->
  exists s, finite_signed s (float_add x y) /\ magnitude_below (k + 2) (float_add x y).
Proof.
  intros Hk Hx Hy Hmx Hmy. unfold float_add.
  destruct Hx as [|mx ex], Hy as [|my ey]; cbn [SFadd magnitude_below] in *.
  - destruct sx, sy; eexists; (split; [constructor|exact I]).
  - exists sy. split; [constructor|lia].
  - exists sx. split; [constructor|lia].
  - destruct (binary_normalize_magnitude
                (cond_Zopp sx (Zpos (fst (shl_align mx ex (Z.min ex ey)))) +
                 cond_Zopp sy (Zpos (fst (shl_align my ey (Z.min ex ey)))))
                (Z.min ex ey) (k + 1)) as (s & Hfs & Hm); [lia| |].
    + eapply sum_magnitude; [apply (aligned_bound mx ex); [lia|done]
                            |apply (aligned_bound my ey); [lia|done]|].
      destruct sx, sy; cbn [cond_Zopp]; lia.
    + exists s. split; [done|]. by replace (k + 2) with (k + 1 + 1) by lia.
Qed.

Lemma float_sub_magnitude sx x sy y k :
  -1074 <= k <= 970 -> finite_signed sx x -> finite_signed sy y ->
  magnitude_below k x -> magnitude_below k y ->
  exists s, finite_signed s (float_sub x y) /\ magnitude_below (k + 2) (float_sub x y).
Proof.
  intros Hk Hx Hy Hmx Hmy. unfold float_sub.
  destruct Hx as [|mx ex], Hy as [|my ey]; cbn [SFsub magnitude_below] in *.
  - destruct sx, sy; eexists; (split; [constructor|exact I]).
  - exists (negb sy). split; [constructor|lia].
  - exists sx. split; [constructor|lia].
  - destruct (binary_normalize_magnitude
                (cond_Zopp sx (Zpos (fst (shl_align mx ex (Z.min ex ey)))) -
                 cond_Zopp sy (Zpos (fst (shl_align my ey (Z.min ex ey)))))
                (Z.min ex ey) (k + 1)) as (s & Hfs & Hm); [lia| |].
    + eapply sum_magnitude; [apply (aligned_bound mx ex); [lia|done]
                            |apply (aligned_bound my ey); [lia|done]|].
      destruct sx, sy; cbn [cond_Zopp]; lia.
    + exists s. split; [done|]. by replace (k + 2) with (k + 1 + 1) by lia.
Qed.

(** Halving, [x / 2], never fails on a number and keeps its sign and its
    bound. *)
Lemma float_half_magnitude s x k :
  -1074 <= k <= 970 -> finite_signed s x -> magnitude_below k x ->
  exists hw, float_truediv x (float_of_int 2) = Ok hw /\
             finite_signed s hw /\ magnitude_below (k + 1) hw.
Proof.
  intros Hk Hx Hm.
  change (float_of_int 2) with (S754_finite false 4503599627370496 (-51)).
  cbn [float_truediv]. eexists. split; [reflexivity|].
  destruct Hx as [|mx ex]; cbn [magnitude_below] in Hm.
  - cbn [SFdiv]. rewrite xorb_false_r. split; [constructor|exact I].
  - cbn [SFdiv]. rewrite xorb_false_r. unfold SFdiv_core_binary.
    change (Zdigits2 4503599627370496) with 53.
    set (d1 := Zdigits2 (Zpos mx)) in *.
    assert (Hd1 : 0 < d1) by (subst d1; cbn; lia).
    change (fexp prec emax ?t) with (Z.max (t - 53) (-1074)).
    set (e' := Z.min _ (ex - -51)).
    assert (He' : e' <= ex + 51 /\ e' <= Z.max (d1 + ex - 55) (-1074)) by (subst e'; lia).
    set (m' := match ex - -51 - e' with Z0 => _ | Zpos _ => _ | Zneg _ => _ end).
    assert (Hm' : m' = Zpos mx * 2 ^ (ex + 51 - e')).
    { subst m'. destruct (ex - -51 - e') as [|sh|sh] eqn:Hs; try lia.
      - replace (ex + 51 - e') with 0 by lia. lia.
      - rewrite Z.shiftl_mul_pow2 by lia. f_equal. f_equal. lia. }
    assert (H2 : 0 < 2 ^ (ex + 51 - e')) by (apply Z.pow_pos_nonneg; lia).
    pose proof (Z_div_mod m' 4503599627370496 ltac:(lia)) as Hdm.
    destruct (Z.div_eucl m' 4503599627370496) as [q r]. destruct Hdm as [Hdm Hr].
    assert (Hq : 0 <= q) by nia.
    apply binary_round_aux_magnitude; [done|lia|lia|].
    destruct (Z.eq_dec q 0) as [->|Hq0]; [cbn; lia|].
    assert (Hdq : Zdigits2 q + 52 <= Zdigits2 m').
    { apply Zdigits2_shift; [lia|lia|]. change (2 ^ 52) with 4503599627370496. lia. }
    rewrite Hm', Zdigits2_mul_pow2 in Hdq by lia. fold d1 in Hdq. lia.
Qed.

(** [int()] of a number below [2^k] is an int below [2^k]. *)
Lemma int_of_float_magnitude s x k :
  0 <= k -> finite_signed s x -> magnitude_below k x ->
  exists z, int_of_float x = Ok z /\ Z.abs z < 2 ^ k.
Proof.
  intros Hk Hx Hm. assert (H2k : 0 < 2 ^ k) by (apply Z.pow_pos_nonneg; lia).
  destruct Hx as [|m e]; cbn [magnitude_below int_of_float] in *.
  - exists 0. split; [done|]. cbn. lia.
  - eexists. split; [reflexivity|].
    pose proof (Zdigits2_spec (Zpos m) ltac:(lia)) as [_ Hhi].
    assert (Hd : 0 < Zdigits2 (Zpos m)) by (cbn; lia).
    set (a := match e with Zneg n => _ | _ => _ end).
    assert (Ha : 0 <= a < 2 ^ k).
    { subst a. destruct e as [|n|n].
      - rewrite Z.shiftl_0_r. split; [lia|].
        eapply Z.lt_le_trans; [exact Hhi|]. apply Z.pow_le_mono_r; lia.
      - rewrite Z.shiftl_mul_pow2 by lia.
        assert (0 < 2 ^ Zpos n) by (apply Z.pow_pos_nonneg; lia).
        split; [lia|].
        apply Z.lt_le_trans with (2 ^ Zdigits2 (Zpos m) * 2 ^ Zpos n).
        + apply Z.mul_lt_mono_pos_r; done.
        + rewrite <- Z.pow_add_r by lia. apply Z.pow_le_mono_r; lia.
      - rewrite Z.shiftr_div_pow2 by lia.
        assert (Hn : 0 < 2 ^ Zpos n) by (apply Z.pow_pos_nonneg; lia).
        split; [apply Z.div_pos; lia|].
        apply Z.div_lt_upper_bound; [done|].
        eapply Z.lt_le_trans; [exact Hhi|].
        rewrite <- Z.pow_add_r by lia. apply Z.pow_le_mono_r; lia. }
    destruct s; lia.
Qed.

Lemma magnitude_below_finite k x : magnitude_below k x -> exists s, finite_signed s x.
Proof. destruct x as [s|s| |s m e]; try done; intros _; exists s; constructor. Qed.

Lemma magnitude_below_mono k k' x : k <= k' -> magnitude_below k x -> magnitude_below k' x.
Proof. destruct x; cbn; try done. lia. Qed.

(** One corner of the box: a number below [2^503], hence an int below
    [2^503]. *)
Lemma corner_defined (op : float -> float -> float) c hw :
  (forall sx x sy y k, -1074 <= k <= 970 -> finite_signed sx x -> finite_signed sy y ->
     magnitude_below k x -> magnitude_below k y ->
     exists s, finite_signed s (op x y) /\ magnitude_below (k + 2) (op x y)) ->
  magnitude_below 500 c -> magnitude_below 501 hw ->
  exists z, int_of_float (op c hw) = Ok z /\ Z.abs z < 2 ^ 503.
Proof.
  intros Hop Hc Hhw.
  destruct (magnitude_below_finite _ _ Hc) as [sc Hsc].
  destruct (magnitude_below_finite _ _ Hhw) as [sh Hsh].
  destruct (Hop sc c sh hw 501 ltac:(lia) Hsc Hsh
              (magnitude_below_mono 500 501 c ltac:(lia) Hc) Hhw) as (s & Hfs & Hm).
  by apply (int_of_float_magnitude s _ 503).
Qed.

(** The corners of a bounded prediction. *)
Lemma corners_defined pred :
  bounded_prediction pred ->
  exists hw hh x1 y1 x2 y2,
    float_truediv (pred_width pred) (float_of_int 2) = Ok hw /\
    float_truediv (pred_height pred) (float_of_int 2) = Ok hh /\
    int_of_float (float_sub (pred_x pred) hw) = Ok x1 /\
    int_of_float (float_sub (pred_y pred) hh) = Ok y1 /\
    int_of_float (float_add (pred_x pred) hw) = Ok x2 /\
    int_of_float (float_add (pred_y pred) hh) = Ok y2 /\
    Z.abs x1 < 2 ^ 503 /\ Z.abs y1 < 2 ^ 503 /\ Z.abs x2 < 2 ^ 503 /\ Z.abs y2 < 2 ^ 503.
Proof.
  intros (Hx & Hy & Hw & Hh).
  destruct (magnitude_below_finite _ _ Hw) as [sw Hsw].
  destruct (magnitude_below_finite _ _ Hh) as [sh Hsh].
  destruct (float_half_magnitude sw _ 500 ltac:(lia) Hsw Hw) as (hw & Ehw & _ & Hmw).
  destruct (float_half_magnitude sh _ 500 ltac:(lia) Hsh Hh) as (hh & Ehh & _ & Hmh).
  destruct (corner_defined float_sub _ hw float_sub_magnitude Hx Hmw) as (x1 & E1 & B1).
  destruct (corner_defined float_sub _ hh float_sub_magnitude Hy Hmh) as (y1 & E2 & B2).
  destruct (corner_defined float_add _ hw float_add_magnitude Hx Hmw) as (x2 & E3 & B3).
  destruct (corner_defined float_add _ hh float_add_magnitude Hy Hmh) as (y2 & E4 & B4).
  exists hw, hh, x1, y1, x2, y2. split_and!; done.
Qed.

Lemma detection_of_corners img_shape pred hw hh x1 y1 x2 y2 :
  float_truediv (pred_width pred) (float_of_int 2) = Ok hw ->
  float_truediv (pred_height pred) (float_of_int 2) = Ok hh ->
  int_of_float (float_sub (pred_x pred) hw) = Ok x1 ->
  int_of_float (float_sub (pred_y pred) hh) = Ok y1 ->
  int_of_float (float_add (pred_x pred) hw) = Ok x2 ->
  int_of_float (float_add (pred_y pred) hh) = Ok y2 ->
  detection_of img_shape pred =
    severity ← _estimate_severity x1 y1 x2 y2 (pred_class pred) img_shape;
    Ok {| bbox := (x1, y1, x2, y2); confidence := pred_confidence pred;
          class := pred_class pred; severity := severity;
          estimated_cost := repair_cost (pred_class pred) severity |}.
Proof.
  intros Ehw Ehh E1 E2 E3 E4. unfold detection_of.
  rewrite Ehw. cbn [mbind res_bind]. rewrite E1. cbn [mbind res_bind].
  rewrite Ehh. cbn [mbind res_bind]. rewrite E2. cbn [mbind res_bind].
  rewrite E3. cbn [mbind res_bind]. rewrite E4. cbn [mbind res_bind]. reflexivity.
Qed.

Lemma detection_of_defined h w pred :
  0 < h -> 0 < w -> bounded_prediction pred ->
  exists det, detection_of (h, w) pred = Ok det.
Proof.
  intros Hh Hw Hb.
  destruct (corners_defined pred Hb)
    as (hw & hh & x1 & y1 & x2 & y2 & Ehw & Ehh & E1 & E2 & E3 & E4 & B1 & B2 & B3 & B4).
  rewrite (detection_of_corners _ _ _ _ _ _ _ _ Ehw Ehh E1 E2 E3 E4).
  assert (Harea : Z.abs ((x2 - x1) * (y2 - y1)) < 2 ^ 1023 * Z.abs (h * w)).
  { rewrite Z.abs_mul.
    assert (E504 : 2 ^ 504 = 2 * 2 ^ 503).
    { rewrite <- Z.pow_succ_r by lia. reflexivity. }
    assert (HP : 0 < 2 ^ 503) by (apply Z.pow_pos_nonneg; lia).
    assert (Hdx : Z.abs (x2 - x1) < 2 ^ 504).
    { rewrite E504. clear -B1 B3 HP. set (P := 2 ^ 503) in *. lia. }
    assert (Hdy : Z.abs (y2 - y1) < 2 ^ 504).
    { rewrite E504. clear -B2 B4 HP. set (P := 2 ^ 503) in *. lia. }
    apply Z.lt_le_trans with (2 ^ 504 * 2 ^ 504).
    - apply Z.mul_lt_mono_nonneg; [apply Z.abs_nonneg|done|apply Z.abs_nonneg|done].
    - rewrite <- Z.pow_add_r by lia.
      assert (H1 : 1 <= Z.abs (h * w)) by (clear -Hh Hw; nia).
      transitivity (2 ^ 1023 * 1).
      + rewrite Z.mul_1_r. apply Z.pow_le_mono_r; lia.
      + apply Z.mul_le_mono_nonneg_l; [apply Z.pow_nonneg; lia|done]. }
  assert (Hne : h * w <> 0) by (clear -Hh Hw; nia).
  destruct (int_truediv_defined _ _ Hne Harea) as (q & Hq & _).
  destruct (estimate_severity_of_ratio x1 y1 x2 y2 (pred_class pred) h w q Hq)
    as (sev & -> & _).
  cbn [mbind res_bind]. by eexists.
Qed.

(** X1. On an image of positive height and width, a response whose
    predictions all have centers and sizes below [2^500] in magnitude never
    makes [detect_damages] raise: it returns one detection per
    prediction. *)
Theorem detect_damages_total h w preds :
  0 < h -> 0 < w -> Forall bounded_prediction preds ->
  exists dets, detect_damages {| predictions := Some preds |} (h, w) = Ok dets /\
               length dets = length preds.
Proof.
  intros Hh Hw Hall. cbn [detect_damages predictions].
  induction Hall as [|pred preds Hb _ IH].
  - by exists [].
  - destruct IH as (dets & Hdets & Hlen).
    destruct (detection_of_defined h w pred Hh Hw Hb) as [det Hdet].
    exists (det :: dets). cbn [for_each]. rewrite Hdet. cbn [mbind res_bind].
    rewrite Hdets. cbn [mbind res_bind]. split; [done|]. cbn. by rewrite Hlen.
Qed.

Lemma detect_damages_total_witness :
  exists dets,
    detect_damages {| predictions := Some [off_center; centered "roof-dent" (float_of_int 1)] |}
                   (480, 640) = Ok dets /\ length dets = 2%nat.
Proof.
  apply (detect_damages_total 480 640); [lia|lia|].
  repeat constructor; vm_compute; congruence.
Defined.

End Magnitude.

(** ** The tiers of the severity *)

Section Tiers.

Ltac case_ifs :=
  repeat match goal with
         | |- context [if ?b then _ else _] => destruct b
         end.

(** The severity as a function of the ratio. *)
Lemma estimate_severity_cascade x1 y1 x2 y2 damage_class h w sev :
  _estimate_severity x1 y1 x2 y2 damage_class (h, w) = Ok sev ->
  exists ratio s,
    int_truediv ((x2 - x1) * (y2 - y1)) (h * w) = Ok ratio /\
    finite_signed s ratio /\
    sev = if bool_decide (damage_class ∈ critical_types)
          then (if float_gt ratio lit_0_05 then "severe"%string
                else if float_gt ratio lit_0_02 then "moderate"%string else "minor"%string)
          else (if float_gt ratio lit_0_08 then "severe"%string
                else if float_gt ratio lit_0_03 then "moderate"%string else "minor"%string).
Proof.
  unfold _estimate_severity.
  destruct (Z.eq_dec (h * w) 0) as [Hz|Hne]; [by rewrite Hz|].
  destruct (int_truediv_outcome ((x2 - x1) * (y2 - y1)) (h * w) Hne)
    as [->|(q & Hq & Hfs)]; [done|].
  rewrite Hq. cbn [mbind res_bind]. intros Hsev.
  exists q, (quotient_sign ((x2 - x1) * (y2 - y1)) (h * w)).
  split; [done|]. split; [done|].
  revert Hsev. case_ifs; by intros [= <-].
Qed.

(** On an image of at most [2^48] pixels the severity is decided by exact
    comparisons of 100 times the box area with 5, 2, 8 and 3 times the
    image area. *)
Lemma estimate_severity_exact x1 y1 x2 y2 damage_class h w sev :
  0 < h * w <= 2 ^ 48 ->
  _estimate_severity x1 y1 x2 y2 damage_class (h, w) = Ok sev ->
  sev = if bool_decide (damage_class ∈ critical_types)
        then (if 5 * (h * w) <? 100 * ((x2 - x1) * (y2 - y1)) then "severe"%string
              else if 2 * (h * w) <? 100 * ((x2 - x1) * (y2 - y1)) then "moderate"%string
              else "minor"%string)
        else (if 8 * (h * w) <? 100 * ((x2 - x1) * (y2 - y1)) then "severe"%string
              else if 3 * (h * w) <? 100 * ((x2 - x1) * (y2 - y1)) then "moderate"%string
              else "minor"%string).
Proof.
  intros Hsz Hsev.
  destruct (estimate_severity_cascade _ _ _ _ _ _ _ _ Hsev) as (ratio & s & Hr & _ & ->).
  destruct (int_truediv_gt_exact _ _ _ Hsz Hr) as (H5 & H2 & H8 & H3).
  assert (Hb : forall (b : bool) n, (b = true <-> n * (h * w) < 100 * ((x2 - x1) * (y2 - y1))) ->
               b = (n * (h * w) <? 100 * ((x2 - x1) * (y2 - y1)))).
  { intros b n Hiff. destruct (Z.ltb_spec (n * (h * w)) (100 * ((x2 - x1) * (y2 - y1)))).
    - by apply Hiff.
    - destruct b; [|done]. assert (n * (h * w) < 100 * ((x2 - x1) * (y2 - y1))); [|lia].
      by apply Hiff. }
  by rewrite (Hb _ 5 H5), (Hb _ 2 H2), (Hb _ 8 H8), (Hb _ 3 H3).
Qed.

(** X4. On an image of at most [2^48] pixels, a box of larger area never
    gets a lower severity, for the same class. *)
Theorem severity_monotone h w damage_class x1 y1 x2 y2 x1' y1' x2' y2' sev sev' :
  0 < h * w <= 2 ^ 48 ->
  (x2 - x1) * (y2 - y1) <= (x2' - x1') * (y2' - y1') ->
  _estimate_severity x1 y1 x2 y2 damage_class (h, w) = Ok sev ->
  _estimate_severity x1' y1' x2' y2' damage_class (h, w) = Ok sev' ->
  (severity_rank sev <= severity_rank sev')%nat.
Proof.
  intros Hsz Hle Hs Hs'.
  apply estimate_severity_exact in Hs, Hs'; [|done..]. subst sev sev'.
  set (A := (x2 - x1) * (y2 - y1)) in *. set (A' := (x2' - x1') * (y2' - y1')) in *.
  set (B := h * w) in *.
  destruct (bool_decide _);
    repeat match goal with
           | |- context [?a <? ?b] => destruct (Z.ltb_spec a b)
           end; vm_compute; lia.
Qed.

(** X5. On images of at most [2^48] pixels the severity depends on the box
    and the image through the exact ratio of their areas only. *)
Theorem severity_by_ratio damage_class h w x1 y1 x2 y2 h' w' x1' y1' x2' y2' sev sev' :
  0 < h * w <= 2 ^ 48 -> 0 < h' * w' <= 2 ^ 48 ->
  (x2 - x1) * (y2 - y1) * (h' * w') = (x2' - x1') * (y2' - y1') * (h * w) ->
  _estimate_severity x1 y1 x2 y2 damage_class (h, w) = Ok sev ->
  _estimate_severity x1' y1' x2' y2' damage_class (h', w') = Ok sev' ->
  sev = sev'.
Proof.
  intros Hsz Hsz' Heq Hs Hs'.
  apply estimate_severity_exact in Hs, Hs'; [|done..]. subst sev sev'.
  set (A := (x2 - x1) * (y2 - y1)) in *. set (A' := (x2' - x1') * (y2' - y1')) in *.
  set (B := h * w) in *. set (B' := h' * w') in *.
  assert (Hn : forall n, (n * B <? 100 * A) = (n * B' <? 100 * A')).
  { intros n. destruct (Z.ltb_spec (n * B) (100 * A)), (Z.ltb_spec (n * B') (100 * A'));
      try done; exfalso; nia. }
  by rewrite !Hn.
Qed.

Lemma float_gt_trans s ratio mh eh ml el :
  finite_signed s ratio ->
  SFltb (S754_finite false ml el) (S754_finite false mh eh) = true ->
  float_gt ratio (S754_finite false mh eh) = true ->
  float_gt ratio (S754_finite false ml el) = true.
Proof.
  intros Hr Hlt. rewrite !(float_gt_le s ratio _ _ Hr).
  destruct (float_le ratio (S754_finite false ml el)) eqn:Hle; [|done].
  by rewrite (float_le_lt_trans s ratio ml el mh eh Hr Hle Hlt).
Qed.

(** X6. For the same box and image, a critical class is never rated
    lower than any other class. *)
Theorem critical_not_lower x1 y1 x2 y2 h w critical other sev sev' :
  critical ∈ critical_types ->
  _estimate_severity x1 y1 x2 y2 critical (h, w) = Ok sev ->
  _estimate_severity x1 y1 x2 y2 other (h, w) = Ok sev' ->
  (severity_rank sev' <= severity_rank sev)%nat.
Proof.
  intros Hc Hs Hs'.
  destruct (estimate_severity_cascade _ _ _ _ _ _ _ _ Hs) as (ratio & s & Hr & Hfs & ->).
  destruct (estimate_severity_cascade _ _ _ _ _ _ _ _ Hs') as (ratio' & s' & Hr' & _ & ->).
  assert (ratio' = ratio) as -> by congruence.
  rewrite (bool_decide_eq_true_2 _ Hc).
  pose proof (float_gt_trans s ratio 5764607523034235 (-56) 7205759403792794 (-57)
                Hfs eq_refl) as H85.
  pose proof (float_gt_trans s ratio 8646911284551352 (-58) 5764607523034235 (-58)
                Hfs eq_refl) as H32.
  pose proof (float_gt_trans s ratio 7205759403792794 (-57) 5764607523034235 (-58)
                Hfs eq_refl) as H52.
  fold lit_0_08 lit_0_05 lit_0_03 lit_0_02 in H85, H32, H52.
  destruct (bool_decide (other ∈ critical_types));
    destruct (float_gt ratio lit_0_05) eqn:E5, (float_gt ratio lit_0_02) eqn:E2,
             (float_gt ratio lit_0_08) eqn:E8, (float_gt ratio lit_0_03) eqn:E3;
    try (vm_compute; lia);
    try (specialize (H85 eq_refl); discriminate);
    try (specialize (H32 eq_refl); discriminate);
    try (specialize (H52 eq_refl); discriminate).
Qed.

Lemma severity_monotone_witness :
  (severity_rank "minor" <= severity_rank "severe")%nat.
Proof.
  apply (severity_monotone 480 640 "roof-dent" 0 0 10 10 0 0 300 300);
    [by vm_compute|lia|vm_compute; reflexivity..].
Defined.

Lemma severity_by_ratio_witness : "minor"%string = "minor"%string.
Proof.
  apply (severity_by_ratio "roof-dent" 100 100 0 0 10 10 200 200 0 0 20 20);
    [by vm_compute|by vm_compute|reflexivity|vm_compute; reflexivity..].
Defined.

Lemma critical_not_lower_witness :
  (severity_rank "moderate" <= severity_rank "severe")%nat.
Proof.
  apply (critical_not_lower 0 0 6 1 10 10 "Front-Windscreen-Damage" "roof-dent").
  - apply (bool_decide_unpack _). reflexivity.
  - vm_compute. reflexivity.
  - vm_compute. reflexivity.
Defined.

End Tiers.

(** ** Costs of detections *)

Section CostInvariants.

Lemma repair_cost_unknown class_name severity :
  class_name ∉ DAMAGE_CLASSES -> repair_cost class_name severity = 100.
Proof.
  intros Hnot. unfold repair_cost.
  assert (Hdom : dom REPAIR_COSTS = list_to_set DAMAGE_CLASSES).
  { apply (bool_decide_unpack _). by vm_compute. }
  assert (REPAIR_COSTS !! class_name = None) as ->.
  { apply not_elem_of_dom. rewrite Hdom. by rewrite elem_of_list_to_set. }
  cbn [default]. by rewrite lookup_empty.
Qed.

(** Every entry a severity can select is between 40 and 1500, and the
    entries of a class grow with the severity. *)
Lemma repair_cost_table class_name :
  (forall severity, severity ∈ ["minor"; "moderate"; "severe"]%string ->
     40 <= repair_cost class_name severity <= 1500) /\
  repair_cost class_name "minor" <= repair_cost class_name "moderate" /\
  repair_cost class_name "moderate" <= repair_cost class_name "severe".
Proof.
  destruct (decide (class_name ∈ DAMAGE_CLASSES)) as [Hin|Hnot].
  - assert (Hall : Forall (fun c =>
        Forall (fun s => 40 <= repair_cost c s <= 1500)
               ["minor"; "moderate"; "severe"]%string /\
        repair_cost c "minor" <= repair_cost c "moderate" /\
        repair_cost c "moderate" <= repair_cost c "severe") DAMAGE_CLASSES).
    { apply (bool_decide_unpack _). by vm_compute. }
    rewrite Forall_forall in Hall. destruct (Hall _ Hin) as (Hr & Hm).
    split; [|done]. intros severity Hs. rewrite Forall_forall in Hr. by apply Hr.
  - rewrite !repair_cost_unknown by done. split; [|lia].
    intros severity _. rewrite repair_cost_unknown by done. lia.
Qed.

Lemma repair_cost_rank class_name s s' :
  s ∈ ["minor"; "moderate"; "severe"]%string ->
  s' ∈ ["minor"; "moderate"; "severe"]%string ->
  (severity_rank s <= severity_rank s')%nat ->
  repair_cost class_name s <= repair_cost class_name s'.
Proof.
  intros Hs Hs'. destruct (repair_cost_table class_name) as (_ & H1 & H2).
  repeat (apply elem_of_cons in Hs as [->|Hs]); [..|by apply elem_of_nil in Hs];
    (repeat (apply elem_of_cons in Hs' as [->|Hs']); [..|by apply elem_of_nil in Hs']);
    vm_compute severity_rank; intros; lia.
Qed.

Lemma detection_of_severity img_shape pred det :
  detection_of img_shape pred = Ok det ->
  exists x1 y1 x2 y2,
    bbox det = (x1, y1, x2, y2) /\
    _estimate_severity x1 y1 x2 y2 (pred_class pred) img_shape = Ok (severity det).
Proof.
  unfold detection_of.
  repeat match goal with
         | |- context [mbind _ ?m] =>
             let H := fresh "E" in
             destruct m eqn:H; cbn [mbind res_bind]; [|discriminate]
         end.
  intros [= <-]. cbn [bbox severity]. eauto 10.
Qed.

Lemma detection_of_severity_in img_shape pred det :
  detection_of img_shape pred = Ok det ->
  severity det ∈ ["minor"; "moderate"; "severe"]%string.
Proof.
  intros Hdet.
  destruct (detection_of_severity _ _ _ Hdet) as (x1 & y1 & x2 & y2 & _ & Hsev).
  destruct img_shape as [h w].
  destruct (estimate_severity_cascade _ _ _ _ _ _ _ _ Hsev) as (ratio & s & Hr & _ & _).
  destruct (estimate_severity_of_ratio x1 y1 x2 y2 (pred_class pred) h w ratio Hr)
    as (sev & Hsev' & Hin). congruence.
Qed.

Lemma detection_of_cost_range img_shape pred det :
  detection_of img_shape pred = Ok det -> 40 <= estimated_cost det <= 1500.
Proof.
  intros Hdet. destruct (detection_of_fields _ _ _ Hdet) as (_ & _ & ->).
  apply repair_cost_table. by eapply detection_of_severity_in.
Qed.

(** X3. Every detection has one of the three severities, and as its cost the
    entry of the cost table for its class and severity: between 40 and
    1500, and 100 for a class that is not one of the 23. *)
Theorem detection_invariants img_shape pred det :
  detection_of img_shape pred = Ok det ->
  class det = pred_class pred /\
  severity det ∈ ["minor"; "moderate"; "severe"]%string /\
  estimated_cost det = repair_cost (class det) (severity det) /\
  40 <= estimated_cost det <= 1500 /\
  (pred_class pred ∉ DAMAGE_CLASSES -> estimated_cost det = 100).
Proof.
  intros Hdet.
  destruct (detection_of_fields _ _ _ Hdet) as (Hc & _ & Hcost).
  split; [done|]. split; [by eapply detection_of_severity_in|].
  split; [done|]. split; [by eapply detection_of_cost_range|].
  intros Hnot. rewrite Hcost, Hc. by apply repair_cost_unknown.
Qed.

(** X7. On an image of at most [2^48] pixels, a box of larger area never
    gets a lower estimated cost, for the same class. *)
Theorem cost_monotone h w damage_class x1 y1 x2 y2 x1' y1' x2' y2' sev sev' :
  0 < h * w <= 2 ^ 48 ->
  (x2 - x1) * (y2 - y1) <= (x2' - x1') * (y2' - y1') ->
  _estimate_severity x1 y1 x2 y2 damage_class (h, w) = Ok sev ->
  _estimate_severity x1' y1' x2' y2' damage_class (h, w) = Ok sev' ->
  repair_cost damage_class sev <= repair_cost damage_class sev'.
Proof.
  intros Hsz Hle Hs Hs'.
  apply estimate_severity_exact in Hs, Hs'; [|done..]. subst sev sev'.
  destruct (repair_cost_table damage_class) as (_ & H1 & H2).
  set (A := (x2 - x1) * (y2 - y1)) in *. set (A' := (x2' - x1') * (y2' - y1')) in *.
  set (B := h * w) in *.
  destruct (bool_decide _);
    repeat match goal with
           | |- context [?a <? ?b] => destruct (Z.ltb_spec a b)
           end; lia.
Qed.

Lemma cost_monotone_witness :
  repair_cost "roof-dent" "minor" <= repair_cost "roof-dent" "severe".
Proof.
  apply (cost_monotone 480 640 "roof-dent" 0 0 10 10 0 0 300 300); [by vm_compute|lia|..];
    vm_compute; reflexivity.
Defined.

Lemma detection_invariants_witness :
  exists det, detection_of (480, 640) off_center = Ok det /\ 40 <= estimated_cost det <= 1500.
Proof.
  eexists. split; [exact off_center_detection|].
  apply (detection_invariants (480, 640) off_center). exact off_center_detection.
Defined.

End CostInvariants.

(** ** Totals and counts *)

Section Sums.

Lemma foldl_add_acc (a : Z) (l : list Z) : foldl Z.add a l = a + foldl Z.add 0 l.
Proof.
  revert a. induction l as [|x l IH]; intros a; cbn [foldl]; [lia|].
  rewrite (IH (a + x)), (IH (0 + x)). lia.
Qed.

Lemma sum_estimated_cost_cons d ds :
  sum_estimated_cost (d :: ds) = estimated_cost d + sum_estimated_cost ds.
Proof. unfold sum_estimated_cost. cbn [fmap list_fmap foldl]. rewrite foldl_add_acc. lia. Qed.

Lemma sum_estimated_cost_app ds ds' :
  sum_estimated_cost (ds ++ ds') = sum_estimated_cost ds + sum_estimated_cost ds'.
Proof.
  induction ds as [|d ds IH]; [done|].
  rewrite <- app_comm_cons, !sum_estimated_cost_cons, IH. lia.
Qed.

Lemma sum_estimated_cost_bounds lo hi ds :
  Forall (fun d => lo <= estimated_cost d <= hi) ds ->
  lo * Z.of_nat (length ds) <= sum_estimated_cost ds <= hi * Z.of_nat (length ds).
Proof.
  induction 1 as [|d ds Hd _ IH]; [cbn; lia|].
  rewrite sum_estimated_cost_cons. cbn [length]. lia.
Qed.

Lemma sum_estimated_cost_sublist ds ds' :
  sublist ds ds' -> Forall (fun d => 0 <= estimated_cost d) ds' ->
  sum_estimated_cost ds <= sum_estimated_cost ds'.
Proof.
  induction 1 as [|d l1 l2 _ IH|d l1 l2 _ IH]; intros Hall; [done|..];
    inversion Hall as [|? ? Hd Hl]; subst; rewrite ?sum_estimated_cost_cons;
    specialize (IH Hl); lia.
Qed.

Lemma severity_count_cons s d ds :
  severity_count s (d :: ds) =
  (if decide (severity d = s) then 1 else 0) + severity_count s ds.
Proof.
  unfold severity_count. rewrite filter_cons.
  destruct (decide (severity d = s)); [|lia].
  cbn [fmap list_fmap foldl]. rewrite foldl_add_acc. lia.
Qed.

Lemma severity_count_length s ds :
  severity_count s ds = Z.of_nat (length (filter (fun d => severity d = s) ds)).
Proof.
  induction ds as [|d ds IH]; [done|].
  rewrite severity_count_cons, filter_cons, IH.
  destruct (decide (severity d = s)); cbn [length]; lia.
Qed.

(** What [detect_damages] returns, detection by detection. *)
Lemma detect_damages_Forall result img_shape dets :
  detect_damages result img_shape = Ok dets ->
  Forall (fun det => exists pred, detection_of img_shape pred = Ok det) dets.
Proof.
  unfold detect_damages. destruct (predictions result) as [preds|].
  - intros Hd. apply for_each_Forall2 in Hd.
    induction Hd; constructor; eauto.
  - intros [= <-]. constructor.
Qed.


(** X8. The summary of a detection response is consistent: the three
    counts of the severity breakdown add up to the number of detections, and
    the total estimated cost is between 40 and 1500 times that number. *)
Theorem detect_summary_consistent result img_shape dets :
  detect_damages result img_shape = Ok dets ->
  let summary := detect_summary dets in
  exists minor moderate severe,
    breakdown summary !! "minor"%string = Some minor /\
    breakdown summary !! "moderate"%string = Some moderate /\
    breakdown summary !! "severe"%string = Some severe /\
    0 <= minor /\ 0 <= moderate /\ 0 <= severe /\
    minor + moderate + severe = Z.of_nat (total_damages summary) /\
    40 * Z.of_nat (total_damages summary) <= total_estimated_cost_of summary
      <= 1500 * Z.of_nat (total_damages summary).
Proof.
  intros Hd summary. subst summary. apply detect_damages_Forall in Hd.
  exists (severity_count "minor" dets), (severity_count "moderate" dets),
    (severity_count "severe" dets).
  cbn [detect_summary breakdown total_damages total_estimated_cost_of].
  unfold severity_breakdown. split; [by simplify_map_eq|].
  split; [by simplify_map_eq|]. split; [by simplify_map_eq|].
  split; [rewrite severity_count_length; lia|].
  split; [rewrite severity_count_length; lia|].
  split; [rewrite severity_count_length; lia|]. split.
  - assert (Hone : forall s, s ∈ ["minor"; "moderate"; "severe"]%string ->
              (if decide (s = "minor"%string) then 1 else 0) +
              (if decide (s = "moderate"%string) then 1 else 0) +
              (if decide (s = "severe"%string) then 1 else 0) = 1).
    { intros s Hs.
      repeat (apply elem_of_cons in Hs as [->|Hs]); [..|by apply elem_of_nil in Hs];
        vm_compute; reflexivity. }
    induction Hd as [|det dets (pred & Hdet) _ IH]; [done|].
    apply detection_of_severity_in, Hone in Hdet.
    rewrite !severity_count_cons. cbn [length]. lia.
  - apply sum_estimated_cost_bounds.
    eapply Forall_impl; [exact Hd|]. intros det (pred & Hdet). cbn beta.
    by apply detection_of_cost_range in Hdet.
Qed.

Lemma detect_summary_consistent_witness :
  match detect_damages {| predictions := Some [off_center; centered "roof-dent" (float_of_int 1)] |}
                       (480, 640) with
  | Ok dets => 40 * Z.of_nat (total_damages (detect_summary dets))
               <= total_estimated_cost_of (detect_summary dets)
  | Raise _ => False
  end.
Proof.
  destruct (detect_damages _ _) as [dets|e] eqn:Hd.
  - destruct (detect_summary_consistent _ _ _ Hd) as (? & ? & ? & _ & _ & _ & _ & _ & _ & _ & Hc).
    apply Hc.
  - vm_compute in Hd. discriminate.
Defined.

End Sums.

(** ** More on the comparison *)

Section CompareMore.

Implicit Types (pickup ret : list Detection) (C : string).

Lemma compare_damages_total pickup ret :
  total_new_cost (compare_damages pickup ret) =
  sum_estimated_cost (new_damages (compare_damages pickup ret)).
Proof. reflexivity. Qed.

Lemma compare_damages_summary pickup ret :
  summary (compare_damages pickup ret) =
  "Found " +:+ pretty (length (new_damages (compare_damages pickup ret))) +:+
  " new damage(s). Estimated cost: $" +:+ pretty (total_new_cost (compare_damages pickup ret)).
Proof. reflexivity. Qed.

(** X9. The pickup list matters through its per-class counts only: two
    pickup lists with the same count of every class, whatever their order,
    boxes, confidences, severities and costs, give the same new damages,
    the same total and the same summary line. *)
Theorem compare_pickup_counts pickup pickup' ret :
  (forall C, count (class <$> pickup) C = count (class <$> pickup') C) ->
  new_damages (compare_damages pickup ret) = new_damages (compare_damages pickup' ret) /\
  total_new_cost (compare_damages pickup ret) = total_new_cost (compare_damages pickup' ret) /\
  summary (compare_damages pickup ret) = summary (compare_damages pickup' ret).
Proof.
  intros Hcount.
  assert (Hnew : new_damages (compare_damages pickup ret) =
                 new_damages (compare_damages pickup' ret)).
  { cbn [compare_damages new_damages]. apply list_filter_iff. intros d.
    rewrite <- !count_zero, !Hcount. done. }
  split; [done|].
  by rewrite !compare_damages_summary, !compare_damages_total, Hnew.
Qed.

Lemma compare_pickup_counts_witness :
  new_damages (compare_damages [dent_at 10; dent_at 300] [dent_at 5; dent_at 6; dent_at 7]) =
  new_damages (compare_damages [dent_at 300; dent_at 10] [dent_at 5; dent_at 6; dent_at 7]).
Proof.
  apply (compare_pickup_counts [dent_at 10; dent_at 300] [dent_at 300; dent_at 10]).
  intros C. unfold count. cbn [fmap list_fmap dent_at class].
  rewrite !filter_cons, !filter_nil. by destruct (decide _).
Defined.

(** X10. Nothing is reported as new exactly when no class has more
    detections in the return list than in the pickup list; in particular
    comparing a list of detections with itself reports nothing, at cost 0. *)
Theorem compare_nothing_new pickup ret :
  (new_damages (compare_damages pickup ret) = [] <->
   forall C, (count (class <$> ret) C <= count (class <$> pickup) C)%nat) /\
  new_damages (compare_damages ret ret) = [] /\
  total_new_cost (compare_damages ret ret) = 0 /\
  summary (compare_damages ret ret) =
    "Found 0 new damage(s). Estimated cost: $0"%string.
Proof.
  assert (Hiff : forall pickup ret,
            new_damages (compare_damages pickup ret) = [] <->
            forall C, (count (class <$> ret) C <= count (class <$> pickup) C)%nat).
  { clear. intros pickup ret. split.
    - intros Hnil C.
      destruct (decide (count (class <$> pickup) C < count (class <$> ret) C)%nat)
        as [Hlt|]; [|lia].
      pose proof (new_damages_of_class pickup ret C) as Hc.
      rewrite Hnil, decide_True in Hc by done. cbn in Hc.
      rewrite (count_fmap_class ret) in Hlt. rewrite <- Hc in Hlt. cbn in Hlt. lia.
    - intros Hle.
      destruct (new_damages (compare_damages pickup ret)) as [|d new] eqn:Hnew; [done|].
      pose proof (new_damages_of_class pickup ret (class d)) as Hc.
      rewrite decide_False in Hc by (specialize (Hle (class d)); lia).
      rewrite Hnew, filter_cons, decide_True in Hc by done. done. }
  assert (Hself : new_damages (compare_damages ret ret) = []) by (apply Hiff; done).
  split; [apply Hiff|]. split; [done|].
  rewrite compare_damages_summary, compare_damages_total, Hself. split; reflexivity.
Qed.

(** X11. When the comparison of two images returns, its lists are what
    [detect_damages] gives for each image, the new damages are return-side
    detections in their order, and the total cost of the new damages is
    between 40 and 1500 times their number and at most the total
    estimated cost of the return-side detections. *)
Theorem compare_images_result pickup_result pickup_shape return_result return_shape cmp :
  compare_images pickup_result pickup_shape return_result return_shape = Ok cmp ->
  detect_damages pickup_result pickup_shape = Ok (pickup_damages cmp) /\
  detect_damages return_result return_shape = Ok (return_damages cmp) /\
  sublist (new_damages cmp) (return_damages cmp) /\
  (n_new_damages (comparison_summary cmp) <= n_return_damages (comparison_summary cmp))%nat /\
  40 * Z.of_nat (length (new_damages cmp)) <= total_new_cost cmp
    <= 1500 * Z.of_nat (length (new_damages cmp)) /\
  total_new_cost cmp <= total_estimated_cost (return_damages cmp).
Proof.
  unfold compare_images.
  destruct (detect_damages pickup_result pickup_shape) as [pickup|] eqn:Hp;
    cbn [mbind res_bind]; [|discriminate].
  destruct (detect_damages return_result return_shape) as [ret|] eqn:Hr;
    cbn [mbind res_bind]; [|discriminate].
  intros [= <-].
  pose proof (new_damages_sublist pickup ret) as Hsub.
  pose proof (detect_damages_Forall _ _ _ Hr) as Hall.
  assert (Hcost : Forall (fun d => 40 <= estimated_cost d <= 1500) ret).
  { eapply Forall_impl; [exact Hall|]. intros det (pred & Hdet). cbn beta.
    by eapply detection_of_cost_range. }
  split; [done|]. split; [done|]. split; [done|].
  split; [cbn; by apply sublist_length|].
  rewrite compare_damages_total. split.
  - apply sum_estimated_cost_bounds.
    rewrite Forall_forall in Hcost. apply Forall_forall. intros d Hd. apply Hcost.
    cbn [compare_damages new_damages] in Hd.
    by apply list_elem_of_filter in Hd as [_ Hd].
  - apply sum_estimated_cost_sublist; [done|].
    eapply Forall_impl; [exact Hcost|]. cbn beta. intros; lia.
Qed.

Lemma compare_images_result_witness :
  match compare_images
          {| predictions := Some [centered "roof-dent" (float_of_int 1)] |} (480, 640)
          {| predictions := Some [centered "roof-dent" (float_of_int 1);
                                  centered "paint-chip" (float_of_int 1)] |} (480, 640)
  with
  | Ok cmp => total_new_cost cmp <= total_estimated_cost (return_damages cmp)
  | Raise _ => False
  end.
Proof.
  destruct (compare_images _ _ _ _) as [cmp|e] eqn:Hcmp.
  - by eapply compare_images_result.
  - vm_compute in Hcmp. discriminate.
Defined.

End CompareMore.

(** ** The length of a string *)

Section Length.

Lemma len_le_length s : (len s <= String.length s)%nat.
Proof. induction s as [|c s IH]; cbn; [lia|]. destruct (is_continuation c); lia. Qed.

Lemma len_app s t : len (s +:+ t) = (len s + len t)%nat.
Proof.
  induction s as [|c s IH]; [done|]. change (String c s +:+ t) with (String c (s +:+ t)).
  cbn [len]. rewrite IH. by destruct (is_continuation c).
Qed.

(** On a string of ASCII characters the code points are the bytes. *)
Lemma len_ascii s :
  Forall (λ c, (Ascii.nat_of_ascii c < 128)%nat) (String.list_ascii_of_string s) ->
  len s = String.length s.
Proof.
  induction s as [|c s IH]; cbn; [done|]. intros H. inversion_clear H as [|? ? Hc Hs].
  rewrite IH by done. destruct c as [b0 b1 b2 b3 b4 b5 b6 b7]. cbn [is_continuation].
  destruct b7; [|by destruct b6].
  exfalso. revert Hc. destruct b0, b1, b2, b3, b4, b5, b6; vm_compute; lia.
Qed.

(** A letter with an accent is one code point and two bytes. *)
Example len_code_points : len "café" = 4%nat /\ String.length "café" = 5%nat.
Proof. split; reflexivity. Qed.

End Length.

(** ** What the renderer paints *)

Section RenderingMore.

Context {font : Type} (the_font : font).
Context (rectangle_outline : Z * Z * Z * Z -> string -> Z -> Image -> Image).
Context (rectangle_fill : Z * Z * Z * Z -> string -> Image -> Image).
Context (text : Z * Z -> string -> string -> font -> Image -> Image).
Context (format_label : string -> float -> string).

Local Abbreviation draw_one :=
  (draw_one font the_font rectangle_outline rectangle_fill text format_label).
Local Abbreviation draw_detections :=
  (draw_detections font the_font rectangle_outline rectangle_fill text format_label).




End RenderingMore.

